(** * hawtk: the vector primitive, the widget container, the renderer
      interface and the frame cycle of the context

    A shallow embedding of [hawtk/vec.hpp], [hawtk/widget.hpp],
    [hawtk/renderer.hpp], [hawtk/context.hpp] and [context.cpp].

    Conventions.
    - A C++ expression whose behaviour is undefined evaluates to [None]
      (pure code) or to [UB] (code that runs on a state).
    - What the compiler decides (overload resolution, [enable_if],
      reference binding) is kept apart from what runs: a construct is a
      [compiled] value, [IllFormed] when the translation unit is rejected,
      and only a [WellFormed] one carries something that can be run.
    - Objects that are reached through references live in a store and are
      named by their location. *)

From Stdlib Require Import ZArith Lia Floats.SpecFloat.
From stdpp Require Import base option list sorting gmap.
From Stdlib Require Strings.String.

(** ** What the compiler decides, and what a run can do *)

Module Lang.

(** The outcome of translating a construct. *)
Inductive compiled (A : Type) : Type :=
| WellFormed (a : A)
| IllFormed.
Arguments WellFormed {A} a.
Arguments IllFormed {A}.

Definition well_formed {A} (c : compiled A) : bool :=
  match c with WellFormed _ => true | IllFormed => false end.

(** The exceptions of the standard library that this code can meet. *)
Inductive exception : Type :=
| out_of_range.

(** The outcome of running a piece of code on a state of type [S]. *)
Inductive outcome (S A : Type) : Type :=
| Ok (a : A) (s : S)
| Raise (e : exception) (s : S)
| UB.
Arguments Ok {S A} a s.
Arguments Raise {S A} e s.
Arguments UB {S A}.

Definition M (S A : Type) : Type := S -> outcome S A.

Definition ret {S A} (a : A) : M S A := fun s => Ok a s.

Definition bind {S A B} (m : M S A) (k : A -> M S B) : M S B :=
  fun s => match m s with
           | Ok a s' => k a s'
           | Raise e s' => Raise e s'
           | UB => UB
           end.

Definition get {S} : M S S := fun s => Ok s s.
Definition put {S} (s : S) : M S unit := fun _ => Ok tt s.
Definition throw {S A} (e : exception) : M S A := fun s => Raise e s.
Definition undefined {S A} : M S A := fun _ => UB.

(** Whether a run ended in an exception. *)
Definition raised {S A} (o : outcome S A) : bool :=
  match o with Raise _ _ => true | _ => false end.

(** An object location: what a reference or a pointer denotes. *)
Definition loc : Type := positive.

End Lang.
Import Lang.

(** The notations [x ← m; k] and [m;; k] of stdpp sequence two calls. *)
#[export] Instance outcome_ret {S} : MRet (M S) := fun A => @ret S A.
#[export] Instance outcome_bind {S} : MBind (M S) :=
  fun A B k m => @bind S A B m k.

(** ** hawtk/vec.hpp *)

Module Vec.

(** The element types [T] that [tvec<T, N>] is instantiated with.  The
    four arithmetic operators are partial: [None] is undefined behaviour. *)
Class Scalar (T : Type) : Type := {
  is_unsigned : bool;          (* std::is_unsigned<T>::value *)
  s_zero : T;                  (* value_type{0} *)
  s_minus_one : T;             (* value_type{-1}, read by operator-() only *)
  s_add : T -> T -> option T;
  s_sub : T -> T -> option T;
  s_mul : T -> T -> option T;
  s_div : T -> T -> option T
}.

(** *** unsigned int: arithmetic modulo 2^32 *)

Definition uint_modulus : Z := 2 ^ 32.
Definition wrap (x : Z) : Z := x mod uint_modulus.
Definition uint_range (x : Z) : Prop := (0 <= x < uint_modulus)%Z.

Definition uint_div (x y : Z) : option Z :=
  if (y =? 0)%Z then None else Some (Z.quot x y).

(** [s_minus_one] is the value that -1 converts to; the member that would
    read it, operator-(), does not exist for this type. *)
#[export] Instance unsigned_int : Scalar Z := {|
  is_unsigned := true;
  s_zero := 0%Z;
  s_minus_one := wrap (-1);
  s_add x y := Some (wrap (x + y));
  s_sub x y := Some (wrap (x - y));
  s_mul x y := Some (wrap (x * y));
  s_div := uint_div
|}.

(** *** int: 32-bit two's complement, overflow is undefined *)

Definition int_min : Z := - 2 ^ 31.
Definition int_max : Z := 2 ^ 31 - 1.
Definition int_rangeb (x : Z) : bool := ((int_min <=? x) && (x <=? int_max))%Z.
Definition int_range (x : Z) : Prop := (int_min <= x <= int_max)%Z.
Definition int_checked (x : Z) : option Z :=
  if int_rangeb x then Some x else None.

Definition int_div (x y : Z) : option Z :=
  if (y =? 0)%Z then None else int_checked (Z.quot x y).

(** The carrier is again [Z]; the instance is chosen by name. *)
Definition signed_int : Scalar Z := {|
  is_unsigned := false;
  s_zero := 0%Z;
  s_minus_one := (-1)%Z;
  s_add x y := int_checked (x + y);
  s_sub x y := int_checked (x - y);
  s_mul x y := int_checked (x * y);
  s_div := int_div
|}.

(** *** float: IEEE 754 binary32, round to nearest even *)

Definition float : Type := spec_float.
Definition float_prec : Z := 24.
Definition float_emax : Z := 128.

(** The literals of context.cpp. *)
Definition f_zero : float := S754_zero false.                    (* 0.f *)
Definition f_one : float := S754_finite false 8388608 (-23).     (* 1.f *)
Definition f_half : float := S754_finite false 8388608 (-24).    (* 0.5f *)
Definition f_neg_half : float := S754_finite true 8388608 (-24). (* -0.5f *)
Definition f_neg_one : float := S754_finite true 8388608 (-23).  (* -1.f *)

#[export] Instance float_scalar : Scalar float := {|
  is_unsigned := false;
  s_zero := f_zero;
  s_minus_one := f_neg_one;
  s_add x y := Some (SFadd float_prec float_emax x y);
  s_sub x y := Some (SFsub float_prec float_emax x y);
  s_mul x y := Some (SFmul float_prec float_emax x y);
  s_div x y := Some (SFdiv float_prec float_emax x y)
|}.

(** *** template <typename T, std::size_t N> class tvec *)

(** [N] is part of the type, as in the template; that the array holds
    exactly [N] elements is the invariant [tvec_wf]. *)
Record tvec (T : Type) (N : nat) : Type := mk_tvec {
  _elements : list T             (* std::array<value_type, N> *)
}.
Arguments mk_tvec {T N} _elements.
Arguments _elements {T N} t.

Definition tvec_wf {T N} (v : tvec T N) : Prop := length (_elements v) = N.

(** What the right operand of a scalar form, const value_type& rhs, is
    bound to: an object that is no element of [*this] (a temporary, a
    variable, an element of another vector), whose value the loop cannot
    change, or the element of [*this] at an index, which the loop
    overwrites on its way. *)
Inductive operand (T : Type) : Type :=
| outside (value : T)
| element_of_this (index : nat).
Arguments outside {T} value.
Arguments element_of_this {T} index.

Section Members.
Context {T : Type} {ST : Scalar T}.
Variable N : nat.

(** explicit tvec(const value_type& value): every element is assigned
    [value]. *)
Definition tvec_broadcast (value : T) : tvec T N :=
  mk_tvec (replicate N value).

(** tvec() : tvec{value_type{0}} *)
Definition tvec_default : tvec T N := tvec_broadcast s_zero.

(** tvec(Args&&... args) : _elements{{args...}}, for sizeof...(Args) == N *)
Definition tvec_variadic (args : list T) : tvec T N := mk_tvec args.

(** size() *)
Definition size (v : tvec T N) : nat := N.

(** operator[]: no bounds checking. *)
Definition subscript (v : tvec T N) (pos : nat) : option T :=
  _elements v !! pos.

(** for (size_type index{0}; index < N; ++index) body(index);
    [count] is the number of iterations left. *)
Fixpoint index_loop (count index : nat)
    (body : nat -> list T -> option (list T)) (elements : list T)
    : option (list T) :=
  match count with
  | O => Some elements
  | S count' =>
      match body index elements with
      | Some elements' => index_loop count' (S index) body elements'
      | None => None
      end
  end.

(** _elements[index] op= rhs[index] *)
Definition compound_at (op : T -> T -> option T) (rhs : tvec T N)
    (index : nat) (elements : list T) : option (list T) :=
  match elements !! index, subscript rhs index with
  | Some x, Some y =>
      match op x y with
      | Some r => Some (<[index := r]> elements)
      | None => None
      end
  | _, _ => None
  end.

(** The four vector forms: the new contents of [*this]. *)
Definition compound_vec (op : T -> T -> option T) (rhs this : tvec T N)
    : option (tvec T N) :=
  mk_tvec <$> index_loop N 0 (compound_at op rhs) (_elements this).

(** Reading through the reference [rhs] when the array holds [elements]. *)
Definition read (rhs : operand T) (elements : list T) : option T :=
  match rhs with
  | outside value => Some value
  | element_of_this index => elements !! index
  end.

(** for (auto& element : _elements) element op= rhs;
    [position] is the element that the loop has reached and [count] the
    number of elements still to visit; rhs is read anew for every
    element. *)
Fixpoint range_for_ref (count position : nat) (op : T -> T -> option T)
    (rhs : operand T) (elements : list T) : option (list T) :=
  match count with
  | O => Some elements
  | S count' =>
      match elements !! position, read rhs elements with
      | Some element, Some value =>
          match op element value with
          | Some element' =>
              range_for_ref count' (S position) op rhs
                (<[position := element']> elements)
          | None => None
          end
      | _, _ => None
      end
  end.

(** The four scalar forms: the loop visits every element of the array. *)
Definition compound_scalar (op : T -> T -> option T) (rhs : operand T)
    (this : tvec T N) : option (tvec T N) :=
  mk_tvec <$> range_for_ref (length (_elements this)) 0 op rhs (_elements this).

Definition operator_plus_assign := compound_vec s_add.
Definition operator_plus_assign_scalar := compound_scalar s_add.
Definition operator_minus_assign := compound_vec s_sub.
Definition operator_minus_assign_scalar := compound_scalar s_sub.
Definition operator_times_assign := compound_vec s_mul.
Definition operator_times_assign_scalar := compound_scalar s_mul.
Definition operator_divide_assign := compound_vec s_div.
Definition operator_divide_assign_scalar := compound_scalar s_div.

(** The free operators: tvec<T, N> result{lhs}; result op= rhs;
    return result;  [U] is tvec<T, N> or T.  [result] is a new object, so
    the scalar that [rhs] refers to is no element of it. *)
Definition operator_plus (lhs rhs : tvec T N) : option (tvec T N) :=
  let result := lhs in operator_plus_assign rhs result.
Definition operator_plus_scalar (lhs : tvec T N) (rhs : T) :=
  let result := lhs in operator_plus_assign_scalar (outside rhs) result.
Definition operator_minus (lhs rhs : tvec T N) : option (tvec T N) :=
  let result := lhs in operator_minus_assign rhs result.
Definition operator_minus_scalar (lhs : tvec T N) (rhs : T) :=
  let result := lhs in operator_minus_assign_scalar (outside rhs) result.
Definition operator_times (lhs rhs : tvec T N) : option (tvec T N) :=
  let result := lhs in operator_times_assign rhs result.
Definition operator_times_scalar (lhs : tvec T N) (rhs : T) :=
  let result := lhs in operator_times_assign_scalar (outside rhs) result.
Definition operator_divide (lhs rhs : tvec T N) : option (tvec T N) :=
  let result := lhs in operator_divide_assign rhs result.
Definition operator_divide_scalar (lhs : tvec T N) (rhs : T) :=
  let result := lhs in operator_divide_assign_scalar (outside rhs) result.

End Members.

(** *** Which constructor a list of scalar arguments selects *)

Inductive constructor : Type :=
| ctor_default        (* tvec() *)
| ctor_broadcast      (* explicit tvec(const value_type&) *)
| ctor_variadic.      (* template <typename... Args, enable_if<sizeof...(Args) == N>> *)

(** Whether a constructor can be called with [k] scalar arguments. *)
Definition viable (N k : nat) (c : constructor) : bool :=
  match c with
  | ctor_default => k =? 0
  | ctor_broadcast => k =? 1
  | ctor_variadic => k =? N
  end.

(** The non-template constructors come first: they win a tie against the
    template.  With N = 1 and one rvalue argument the template is the
    better match; [one_argument_agree] shows that the vector built is the
    same. *)
Definition candidates : list constructor :=
  [ctor_default; ctor_broadcast; ctor_variadic].

Definition resolve (N k : nat) : compiled constructor :=
  match filter (fun c => viable N k c = true) candidates with
  | c :: _ => WellFormed c
  | [] => IllFormed
  end.

(** tvec<T, N>{args...} for scalar arguments. *)
Definition construct {T} {ST : Scalar T} (N : nat) (args : list T)
    : compiled (tvec T N) :=
  match resolve N (length args) with
  | WellFormed ctor_default => WellFormed (tvec_default N)
  | WellFormed ctor_broadcast =>
      match args with
      | value :: _ => WellFormed (tvec_broadcast N value)
      | [] => IllFormed
      end
  | WellFormed ctor_variadic => WellFormed (tvec_variadic N args)
  | IllFormed => IllFormed
  end.

(** *** Members that return [*this] *)

(** The vectors that exist during a run, by location. *)
Abbreviation store T N := (gmap loc (tvec T N)).

(** A member function that replaces the contents of [*this] and returns
    [*this]: the reference it returns is the location it was called on. *)
Definition returning_this {T N} (body : tvec T N -> option (tvec T N))
    (this : loc) : M (store T N) loc :=
  fun objects =>
    match objects !! this with
    | Some contents =>
        match body contents with
        | Some contents' => Ok this (<[this := contents']> objects)
        | None => UB
        end
    | None => UB
    end.

Section Negation.
Context {T : Type} {ST : Scalar T}.
Variable N : nat.

(** tvec& operator*=(const value_type& rhs), on the store. *)
Definition operator_times_assign_scalar_ref (rhs : operand T)
    : loc -> M (store T N) loc :=
  returning_this (operator_times_assign_scalar N rhs).

(** template <typename U = value_type>
    enable_if_t<!std::is_unsigned<U>::value, tvec&> operator-()
    { return *this *= value_type{-1}; }
    The right operand is the temporary value_type{-1}. *)
Definition operator_negate : compiled (loc -> M (store T N) loc) :=
  if negb is_unsigned
  then WellFormed
         (fun this => operator_times_assign_scalar_ref (outside s_minus_one) this)
  else IllFormed.
End Negation.

(** *** The aliases *)

Definition vec2 : Type := tvec float 2.
Definition uvec2 : Type := tvec Z 2.      (* over [unsigned_int] *)
Definition color : Type := tvec float 4.

End Vec.

(** ** std::vector, as far as widget.hpp uses it *)

Module StdVector.

Section Vector.
Context {A : Type}.

(** An iterator is the index it points at; [end()] is the length. *)
Definition iterator : Type := nat.

(** at(pos): throws std::out_of_range if !(pos < size()). *)
Definition at_ (pos : nat) : M (list A) A :=
  fun v => match v !! pos with
           | Some x => Ok x v
           | None => Raise out_of_range v
           end.

(** operator[](pos): no bounds checking. *)
Definition subscript (pos : nat) : M (list A) A :=
  fun v => match v !! pos with
           | Some x => Ok x v
           | None => UB
           end.

(** front(), back(): undefined on an empty vector. *)
Definition front : M (list A) A :=
  fun v => match head v with Some x => Ok x v | None => UB end.
Definition back : M (list A) A :=
  fun v => match last v with Some x => Ok x v | None => UB end.

Definition size : M (list A) nat := fun v => Ok (length v) v.
Definition begin_ : M (list A) iterator := fun v => Ok 0 v.
Definition end_ : M (list A) iterator := fun v => Ok (length v) v.

Definition clear : M (list A) unit := fun _ => Ok tt [].

(** insert(pos, value): before [pos], which is in [begin(), end()]. *)
Definition insert (pos : iterator) (value : A) : M (list A) iterator :=
  fun v => if decide (pos <= length v)
           then Ok pos (take pos v ++ value :: drop pos v)
           else UB.

(** erase(pos): [pos] is dereferenceable; returns the iterator that
    follows the removed element. *)
Definition erase (pos : iterator) : M (list A) iterator :=
  fun v => if decide (pos < length v)
           then Ok pos (take pos v ++ drop (S pos) v)
           else UB.

(** erase(first, last): [first, last) is a range of the vector. *)
Definition erase_range (first last : iterator) : M (list A) iterator :=
  fun v => if decide (first <= last /\ last <= length v)
           then Ok first (take first v ++ drop last v)
           else UB.

Definition push_back (value : A) : M (list A) unit :=
  fun v => Ok tt (v ++ [value]).

(** emplace_back(args...): the element is built from [args]. *)
Definition emplace_back (value : A) : M (list A) unit :=
  fun v => Ok tt (v ++ [value]).
End Vector.

End StdVector.

(** ** hawtk/renderer.hpp *)

Module Render.

Record vertex : Type := mk_vertex {
  position : Vec.vec2;
  color : Vec.color
}.

(** class renderer: the five pure virtual members, each void.  A backend
    is a type [R] of backend states with one transformer per member.  This
    is the declaration that context.cpp compiles against (it calls
    begin_pass); the other declaration of the class, without the two pass
    members, is not the one in use. *)
Class renderer (R : Type) : Type := {
  draw : list vertex -> R -> R;
  begin_pass : R -> R;
  end_pass : R -> R;
  enable_scissor_test : Vec.vec2 -> Vec.vec2 -> R -> R;
  disable_scissor_test : R -> R
}.

(** One call on the interface. *)
Inductive renderer_call : Type :=
| call_draw (vertices : list vertex)
| call_begin_pass
| call_end_pass
| call_enable_scissor_test (offset bounds : Vec.vec2)
| call_disable_scissor_test.

Definition dispatch {R} {B : renderer R} (c : renderer_call) : R -> R :=
  match c with
  | call_draw vertices => draw vertices
  | call_begin_pass => begin_pass
  | call_end_pass => end_pass
  | call_enable_scissor_test offset bounds => enable_scissor_test offset bounds
  | call_disable_scissor_test => disable_scissor_test
  end.

(** The backend state after a sequence of calls, first call first. *)
Definition replay {R} {B : renderer R} (calls : list renderer_call) (r : R) : R :=
  foldl (fun r c => dispatch c r) r calls.

(** A test backend that records the calls it receives, oldest first. *)
Definition recorder : Type := list renderer_call.

#[export] Instance recording_renderer : renderer recorder := {|
  draw vertices log := log ++ [call_draw vertices];
  begin_pass log := log ++ [call_begin_pass];
  end_pass log := log ++ [call_end_pass];
  enable_scissor_test offset bounds log :=
    log ++ [call_enable_scissor_test offset bounds];
  disable_scissor_test log := log ++ [call_disable_scissor_test]
|}.

End Render.

(** ** hawtk/context.hpp and context.cpp *)

Module Context.
Import Vec Render.

(** class context: std::unique_ptr<renderer> _renderer; [None] is the
    null pointer that a moved-from context is left with. *)
Record context (R : Type) : Type := mk_context {
  _renderer : option R
}.
Arguments mk_context {R} _renderer.
Arguments _renderer {R} c.

Section Members.
Context {R : Type} {B : renderer R}.

(** make_context<T>(args...): [backend] is the T that make_unique builds
    from [args]. *)
Definition make_context (backend : R) : context R :=
  mk_context (Some backend).

(** _renderer->member(...): the call goes through the owned pointer. *)
Definition through_renderer (member : R -> R) : M (context R) unit :=
  fun this => match _renderer this with
              | Some r => Ok tt (mk_context (Some (member r)))
              | None => UB
              end.

(** The three vertices of context::draw. *)
Definition vertices : list vertex :=
  [ mk_vertex (tvec_variadic 2 [f_neg_half; f_neg_half]) (tvec_broadcast 4 f_one);
    mk_vertex (tvec_variadic 2 [f_half; f_neg_half]) (tvec_broadcast 4 f_one);
    mk_vertex (tvec_variadic 2 [f_zero; f_half]) (tvec_broadcast 4 f_one) ].

(** void context::draw() *)
Definition draw : M (context R) unit :=
  through_renderer begin_pass;;
  through_renderer (Render.draw vertices).

(** void context::update() {} *)
Definition update : M (context R) unit := mret tt.
End Members.

End Context.

(** ** hawtk/widget.hpp *)

Module Widget.
Import Vec.

(** std::shared_ptr<widget>: the location of the widget, or null. *)
Definition widget_pointer : Type := option loc.

Record widget : Type := mk_widget {
  _dirty : bool;
  _bounds : vec2;
  _children : list widget_pointer
}.

Definition size_type : Type := nat.
Definition iterator : Type := StdVector.iterator.

(** widget() = default; with the default member initializer of _dirty. *)
Definition widget_default : widget :=
  mk_widget true (tvec_default 2) [].

(** explicit widget(const vec2& bounds) noexcept : _bounds{bounds} {} *)
Definition widget_bounds (bounds : vec2) : widget :=
  mk_widget true bounds [].

(** _children.member(...): the call runs on the child vector and leaves
    the other members alone. *)
Definition on_children {A} (member : M (list widget_pointer) A) : M widget A :=
  fun this =>
    match member (_children this) with
    | Ok a children => Ok a (mk_widget (_dirty this) (_bounds this) children)
    | Raise e children => Raise e (mk_widget (_dirty this) (_bounds this) children)
    | UB => UB
    end.

(** The accessors return the element that the reference they yield
    designates.  A const and a non-const overload, or an iterator and a
    const_iterator overload, have the same body and are one definition. *)
Definition at_ (pos : size_type) : M widget widget_pointer :=
  on_children (StdVector.at_ pos).
Definition subscript (pos : size_type) : M widget widget_pointer :=
  on_children (StdVector.subscript pos).
Definition front : M widget widget_pointer := on_children StdVector.front.
Definition back : M widget widget_pointer := on_children StdVector.back.
Definition size : M widget size_type := on_children StdVector.size.
Definition begin_ : M widget iterator := on_children StdVector.begin_.
Definition end_ : M widget iterator := on_children StdVector.end_.
Definition clear : M widget unit := on_children StdVector.clear.
Definition insert (pos : iterator) (child : widget_pointer) : M widget unit :=
  on_children (StdVector.insert pos child);; mret tt.
Definition erase (pos : iterator) : M widget iterator :=
  on_children (StdVector.erase pos).
Definition erase_range (first last : iterator) : M widget iterator :=
  on_children (StdVector.erase_range first last).
Definition push_back (child : widget_pointer) : M widget unit :=
  on_children (StdVector.push_back child).

(** The children in the order in which [begin()] .. [end()] visits them. *)
Definition iteration (w : widget) : list widget_pointer := _children w.

(** *** template <typename T, typename... Args> T& emplace_back(Args&&...) *)

(** The types that meet in the return statement. *)
Inductive cpp_type : Type :=
| ty_widget                      (* hawtk::widget *)
| ty_subtype (name : nat)        (* a class derived from widget *)
| ty_shared_ptr_widget.          (* std::shared_ptr<widget> *)

Definition same_type (a b : cpp_type) : bool :=
  match a, b with
  | ty_widget, ty_widget => true
  | ty_subtype m, ty_subtype n => m =? n
  | ty_shared_ptr_widget, ty_shared_ptr_widget => true
  | _, _ => false
  end.

(** [base] is a base class of [derived], as far as this header knows:
    the subtypes derive from widget, the smart pointer from neither. *)
Definition base_of (base derived : cpp_type) : bool :=
  match base, derived with
  | ty_widget, ty_subtype _ => true
  | _, _ => false
  end.

(** Conversion functions to an lvalue of class type: std::shared_ptr has
    none (only explicit operator bool), the widget classes declare none. *)
Definition converts_to_lvalue (source target : cpp_type) : bool := false.

(** Whether [target&] binds to an lvalue of type [source]. *)
Definition binds_reference (target source : cpp_type) : bool :=
  same_type target source || base_of target source
  || converts_to_lvalue source target.

(** The two statements of the body; [fresh] is the object that
    make_unique<T> allocates:
      _children.emplace_back(std::make_unique<T>(args...));
      return _children.back(); *)
Definition emplace_back_body (fresh : loc) : M widget widget_pointer :=
  on_children (StdVector.emplace_back (Some fresh));;
  on_children StdVector.back.

(** An instantiation: the return statement initialises the T& that is
    returned from _children.back(), an lvalue std::shared_ptr<widget>. *)
Definition emplace_back (T : nat) : compiled (loc -> M widget widget_pointer) :=
  if binds_reference (ty_subtype T) ty_shared_ptr_widget
  then WellFormed emplace_back_body
  else IllFormed.

(** virtual void draw(context& context) = 0 is pure: the core holds no
    body for it and no call of it. *)

(** *** Series of calls *)

Inductive method : Type :=
| call_at (pos : size_type)
| call_subscript (pos : size_type)
| call_front
| call_back
| call_size
| call_begin
| call_end
| call_clear
| call_insert (pos : iterator) (child : widget_pointer)
| call_erase (pos : iterator)
| call_erase_range (first last : iterator)
| call_push_back (child : widget_pointer)
| call_emplace_back_body (fresh : loc).

(** The call with its result dropped. *)
Definition invoke (m : method) : M widget unit :=
  match m with
  | call_at pos => at_ pos;; mret tt
  | call_subscript pos => subscript pos;; mret tt
  | call_front => front;; mret tt
  | call_back => back;; mret tt
  | call_size => size;; mret tt
  | call_begin => begin_;; mret tt
  | call_end => end_;; mret tt
  | call_clear => clear
  | call_insert pos child => insert pos child
  | call_erase pos => erase pos;; mret tt
  | call_erase_range first last => erase_range first last;; mret tt
  | call_push_back child => push_back child
  | call_emplace_back_body fresh => emplace_back_body fresh;; mret tt
  end.

Fixpoint run (ms : list method) : M widget unit :=
  match ms with
  | [] => mret tt
  | m :: rest => invoke m;; run rest
  end.

End Widget.

(** ** An application: one context and the widgets it has built *)

Module App.
Import Vec Render Context Widget.

Record world (R : Type) : Type := mk_world {
  the_context : context R;
  widgets : gmap loc widget
}.
Arguments mk_world {R} the_context widgets.
Arguments the_context {R} w.
Arguments widgets {R} w.

Inductive action : Type :=
| new_widget (fresh : loc)                        (* widget() *)
| new_widget_bounds (fresh : loc) (bounds : vec2) (* widget(bounds) *)
| member (this : loc) (m : method)                (* this->m *)
| context_draw
| context_update.

Section Steps.
Context {R : Type} {B : renderer R}.

Definition initial (backend : R) : world R :=
  mk_world (make_context backend) ∅.

(** Run a member of the context, the widgets stay as they are. *)
Definition in_context (body : M (context R) unit) : M (world R) unit :=
  fun w => match body (the_context w) with
           | Ok a c => Ok a (mk_world c (widgets w))
           | Raise e c => Raise e (mk_world c (widgets w))
           | UB => UB
           end.

(** Run a member of the widget at [this]. *)
Definition in_widget (this : loc) (body : M widget unit) : M (world R) unit :=
  fun w => match widgets w !! this with
           | Some object =>
               match body object with
               | Ok a object' =>
                   Ok a (mk_world (the_context w) (<[this := object']> (widgets w)))
               | Raise e object' =>
                   Raise e (mk_world (the_context w) (<[this := object']> (widgets w)))
               | UB => UB
               end
           | None => UB
           end.

(** Build a widget in storage that no object occupies. *)
Definition construct_at (fresh : loc) (object : widget) : M (world R) unit :=
  fun w => match widgets w !! fresh with
           | None => Ok tt (mk_world (the_context w) (<[fresh := object]> (widgets w)))
           | Some _ => UB
           end.

Definition act (a : action) : M (world R) unit :=
  match a with
  | new_widget fresh => construct_at fresh widget_default
  | new_widget_bounds fresh bounds => construct_at fresh (widget_bounds bounds)
  | member this m => in_widget this (invoke m)
  | context_draw => in_context draw
  | context_update => in_context update
  end.

(** The worlds a program can be in; an exception is caught and the
    program goes on. *)
Inductive reachable : world R -> Prop :=
| reach_initial backend : reachable (initial backend)
| reach_ok a w w' : reachable w -> act a w = Ok tt w' -> reachable w'
| reach_raise a e w w' : reachable w -> act a w = Raise e w' -> reachable w'.
End Steps.

End App.

(** ** hawtk/vec.hpp: the right operand as the reference it is *)

Module VecRef.
Import Vec.

Section ByReference.
Context {T : Type} {ST : Scalar T}.
Variable N : nat.

(** _elements[index] op= rhs[index], where [*this] is the object at [this]
    and [rhs] is bound to the object at [rhs]: both elements are read from
    the store as it is now, then the element of [*this] is written. *)
Definition compound_at_ref (op : T -> T -> option T) (this rhs : loc)
    (index : nat) (objects : store T N) : option (store T N) :=
  match objects !! this, objects !! rhs with
  | Some t, Some r =>
      match _elements t !! index, subscript N r index with
      | Some x, Some y =>
          match op x y with
          | Some z => Some (<[this := mk_tvec (<[index := z]> (_elements t))]> objects)
          | None => None
          end
      | _, _ => None
      end
  | _, _ => None
  end.

(** for (size_type index{0}; index < N; ++index) body(index); on the
    store. *)
Fixpoint index_loop_ref (count index : nat)
    (body : nat -> store T N -> option (store T N)) (objects : store T N)
    : option (store T N) :=
  match count with
  | O => Some objects
  | S count' =>
      match body index objects with
      | Some objects' => index_loop_ref count' (S index) body objects'
      | None => None
      end
  end.

(** tvec& operator op=(const tvec& rhs) { loop; return *this; } *)
Definition compound_vec_ref (op : T -> T -> option T) (rhs this : loc)
    : M (store T N) loc :=
  fun objects =>
    match index_loop_ref N 0 (compound_at_ref op this rhs) objects with
    | Some objects' => Ok this objects'
    | None => UB
    end.

Definition operator_plus_assign_ref := compound_vec_ref s_add.
Definition operator_minus_assign_ref := compound_vec_ref s_sub.
Definition operator_times_assign_ref := compound_vec_ref s_mul.
Definition operator_divide_assign_ref := compound_vec_ref s_div.

End ByReference.

End VecRef.

(** ** hawtk/vec.hpp: operator<< *)

Module VecStream.
Import Vec String.

(** lhs << element: what the inserter of the element type writes. *)
Class Streamable (T : Type) : Type := {
  insert_element : T -> string
}.

(** std::size_t is 64 bits wide; rhs.size() - 1 is computed in it. *)
Definition size_max : Z := 2 ^ 64.
Definition size_minus (a b : Z) : Z := ((a - b) mod size_max)%Z.

Section Stream.
Context {T : Type} {ST : Scalar T} {P : Streamable T}.
Variable N : nat.

(** The stream is the text written to it so far.
    for (index{0}; index < rhs.size(); ++index) {
      lhs << rhs[index];
      if (index < rhs.size() - 1) { lhs << ", "; }
    } *)
Fixpoint stream_loop (count index : nat) (rhs : tvec T N) (lhs : string)
    : option string :=
  match count with
  | O => Some lhs
  | S count' =>
      match subscript N rhs index with
      | Some element =>
          let lhs := append lhs (insert_element element) in
          let lhs :=
            if (Z.of_nat index <? size_minus (Z.of_nat (size N rhs)) 1)%Z
            then append lhs ", "
            else lhs in
          stream_loop count' (S index) rhs lhs
      | None => None
      end
  end.

(** std::ostream& operator<<(std::ostream& lhs, const tvec<T, N>& rhs) *)
Definition operator_shift_left (lhs : string) (rhs : tvec T N) : option string :=
  let lhs := append lhs "tvec{" in
  match stream_loop (size N rhs) 0 rhs lhs with
  | Some lhs => Some (append lhs "}")
  | None => None
  end.

End Stream.

End VecStream.

(** ** The integer element types *)

Module VecIntegers.
Import Vec.

(** The integer types of 8, 16, 32 and 64 bits, unsigned and signed, as
    element types; int has 32 bits.  Operands of a type narrower than int
    are promoted to int, the operator is applied in int (where overflow is
    undefined), and the compound assignment converts the result back to the
    element type.  A type at least as wide as int computes in itself:
    modulo 2^w when unsigned, with undefined overflow when signed. *)
Definition int_bits : Z := 32.
Definition widths : list Z := [8; 16; 32; 64]%Z.

Definition unsigned_range (w x : Z) : Prop := (0 <= x < 2 ^ w)%Z.
Definition signed_rangeb (w x : Z) : bool :=
  ((- 2 ^ (w - 1) <=? x) && (x <? 2 ^ (w - 1)))%Z.

(** Conversion of an int to the unsigned type of w bits: modulo 2^w. *)
Definition to_unsigned (w r : Z) : Z := (r mod 2 ^ w)%Z.

(** Conversion of an int to the signed type of w bits: the value of the
    type that is congruent modulo 2^w. *)
Definition to_signed (w r : Z) : Z :=
  ((r + 2 ^ (w - 1)) mod 2 ^ w - 2 ^ (w - 1))%Z.

(** An operator whose mathematical result is [r], stored in an element. *)
Definition unsigned_result (w r : Z) : option Z :=
  if (w <? int_bits)%Z
  then (if int_rangeb r then Some (to_unsigned w r) else None)
  else Some (to_unsigned w r).

Definition signed_result (w r : Z) : option Z :=
  if (w <? int_bits)%Z
  then (if int_rangeb r then Some (to_signed w r) else None)
  else (if signed_rangeb w r then Some r else None).

Definition quotient (result : Z -> option Z) (x y : Z) : option Z :=
  if (y =? 0)%Z then None else result (Z.quot x y).

Definition unsigned_bits (w : Z) : Scalar Z := {|
  is_unsigned := true;
  s_zero := 0%Z;
  s_minus_one := to_unsigned w (-1);
  s_add x y := unsigned_result w (x + y);
  s_sub x y := unsigned_result w (x - y);
  s_mul x y := unsigned_result w (x * y);
  s_div := quotient (unsigned_result w)
|}.

Definition signed_bits (w : Z) : Scalar Z := {|
  is_unsigned := false;
  s_zero := 0%Z;
  s_minus_one := (-1)%Z;
  s_add x y := signed_result w (x + y);
  s_sub x y := signed_result w (x - y);
  s_mul x y := signed_result w (x * y);
  s_div := quotient (signed_result w)
|}.

End VecIntegers.

(** * The vocabulary of the properties *)

Section FrameVocabulary.
Import Vec Render.

(** The triangle of the specification, element by element: the positions
    (-0.5,-0.5), (0.5,-0.5), (0,0.5), every colour (1,1,1,1). *)
Definition opaque_white : Vec.color :=
  mk_tvec [f_one; f_one; f_one; f_one].

Definition expected_triangle : list vertex :=
  [ mk_vertex (mk_tvec [f_neg_half; f_neg_half]) opaque_white;
    mk_vertex (mk_tvec [f_half; f_neg_half]) opaque_white;
    mk_vertex (mk_tvec [f_zero; f_half]) opaque_white ].

(** The two members of the context, as an application calls them frame
    after frame. *)
Inductive frame_call : Type :=
| frame_update
| frame_draw.

#[global] Instance frame_call_eq_dec : EqDecision frame_call.
Proof. solve_decision. Defined.

(** The calls on the renderer that one member issues. *)
Definition issued (c : frame_call) : list renderer_call :=
  match c with
  | frame_update => []
  | frame_draw => [call_begin_pass; call_draw expected_triangle]
  end.

End FrameVocabulary.

Section FrameRuns.
Import Vec Render Context.
Context {R : Type} {B : renderer R}.

Definition frame (c : frame_call) : M (context R) unit :=
  match c with
  | frame_update => update
  | frame_draw => draw
  end.

Fixpoint frames (cs : list frame_call) : M (context R) unit :=
  match cs with
  | [] => mret tt
  | c :: rest => frame c;; frames rest
  end.

End FrameRuns.

Section StreamVocabulary.
Import VecStream String.

(** An inserter to try the streaming on: one letter per element. *)
Definition letter_inserter : Streamable bool :=
  {| insert_element := fun b : bool => if b then "t"%string else "f"%string |}.

End StreamVocabulary.

Section ArithmeticVocabulary.

(** What the range-based loop computes when nothing but the element itself
    changes under it: the body applied to the elements one by one. *)
Fixpoint range_for {T} (body : T -> option T) (elements : list T)
    : option (list T) :=
  match elements with
  | [] => Some []
  | element :: rest =>
      match body element with
      | Some element' =>
          match range_for body rest with
          | Some rest' => Some (element' :: rest')
          | None => None
          end
      | None => None
      end
  end.

(** What the index loop computes: the operator applied to the elements
    pair by pair. *)
Fixpoint pairwise {T} (op : T -> T -> option T) (l r : list T) : option (list T) :=
  match l, r with
  | x :: l', y :: r' =>
      match op x y with
      | Some z => (z ::.) <$> pairwise op l' r'
      | None => None
      end
  | [], _ => Some []
  | _ :: _, [] => None
  end.

End ArithmeticVocabulary.

Section WidgetVocabulary.
Import Vec Widget.

(** Two states of a widget with the same dirty flag. *)
Definition same_flag (w w' : widget) : Prop := _dirty w' = _dirty w.

(** The child that a call inserts, if it inserts one. *)
Definition adds (m : method) : option widget_pointer :=
  match m with
  | call_push_back child => Some child
  | call_emplace_back_body fresh => Some (Some fresh)
  | call_insert _ child => Some child
  | _ => None
  end.

Definition added (m : method) : nat :=
  match adds m with Some _ => 1 | None => 0 end.

(** The number of children that a call erases when it is valid. *)
Definition erased (m : method) : nat :=
  match m with
  | call_erase _ => 1
  | call_erase_range first last => last - first
  | _ => 0
  end.

Definition total (count : method -> nat) (ms : list method) : nat :=
  foldr (fun m n => count m + n) 0 ms.

(** The calls of the claim: appends, inserts at a position, erases. *)
Definition builder (m : method) : bool :=
  match m with
  | call_push_back _ | call_emplace_back_body _ | call_insert _ _
  | call_erase _ | call_erase_range _ _ => true
  | _ => false
  end.

Definition positional (m : method) : bool :=
  match m with call_insert _ _ => true | _ => false end.

(** The bookkeeping that the claim speaks of: every surviving child
    together with the number of the call that inserted it.  An append puts
    the new entry last, an insert puts it before the position, an erase
    drops the entries at the positions. *)
Definition entry : Type := nat * widget_pointer.

Definition ledger_step (stamp : nat) (m : method) (led : list entry)
    : option (list entry) :=
  match m with
  | call_push_back child => Some (led ++ [(stamp, child)])
  | call_emplace_back_body fresh => Some (led ++ [(stamp, Some fresh)])
  | call_insert pos child =>
      if decide (pos <= length led)
      then Some (take pos led ++ (stamp, child) :: drop pos led)
      else None
  | call_erase pos =>
      if decide (pos < length led)
      then Some (take pos led ++ drop (S pos) led)
      else None
  | call_erase_range first last =>
      if decide (first <= last /\ last <= length led)
      then Some (take first led ++ drop last led)
      else None
  | _ => Some led
  end.

Fixpoint ledger (stamp : nat) (ms : list method) (led : list entry)
    : option (list entry) :=
  match ms with
  | [] => Some led
  | m :: rest =>
      match ledger_step stamp m led with
      | Some led' => ledger (S stamp) rest led'
      | None => None
      end
  end.

Definition in_order (led : list entry) : Prop :=
  StronglySorted (fun a b : entry => a.1 < b.1) led.

Definition older (stamp : nat) (led : list entry) : Prop :=
  Forall (fun e : entry => e.1 < stamp) led.

(** Every entry names a call of the series that inserts its child. *)
Definition accounted (series : list method) (led : list entry) : Prop :=
  Forall (fun e : entry => exists m, series !! e.1 = Some m /\ adds m = Some e.2) led.

(** The children that the calls of a series insert, in the order of the
    calls. *)
Definition inserted (ms : list method) : list widget_pointer := omap adds ms.

(** Whether the positions of a call are in range for a widget of [n]
    children: insert takes begin() to end(), erase a position before
    end(), erase(first, last) a range of the sequence. *)
Definition in_range (n : nat) (m : method) : bool :=
  match m with
  | call_insert pos _ => pos <=? n
  | call_erase pos => pos <? n
  | call_erase_range first last => (first <=? last) && (last <=? n)
  | _ => true
  end.

(** A series of appends, inserts and erases on a widget of [n] children in
    which every call finds its positions in range. *)
Fixpoint valid (n : nat) (ms : list method) : bool :=
  match ms with
  | [] => true
  | m :: rest =>
      builder m && in_range n m && valid (n + added m - erased m) rest
  end.

(** What one call does to the sequence of children, told by positions:
    an append puts the child last; an insert puts the child at its
    position and keeps the others in their order; an erase takes the
    children at its positions away, those before keep their index and
    those after move down. *)
Definition placed (m : method) (before after : list widget_pointer) : Prop :=
  match m with
  | call_push_back child => after = before ++ [child]
  | call_emplace_back_body fresh => after = before ++ [Some fresh]
  | call_insert pos child =>
      after !! pos = Some child
      /\ before `sublist_of` after
      /\ length after = S (length before)
  | call_erase pos =>
      after `sublist_of` before
      /\ S (length after) = length before
      /\ (forall i, i < pos -> after !! i = before !! i)
      /\ (forall i, pos <= i -> after !! i = before !! S i)
  | call_erase_range first last =>
      after `sublist_of` before
      /\ length after + (last - first) = length before
      /\ (forall i, i < first -> after !! i = before !! i)
      /\ (forall i, first <= i -> after !! i = before !! (i + (last - first)))
  | _ => after = before
  end.

(** A series that appends, inserts at a position in the middle and at
    begin(), erases a range and erases one child. *)
Definition example_series : list method :=
  [ call_push_back (Some 1%positive); call_push_back (Some 2%positive);
    call_insert 1 (Some 3%positive); call_insert 0 None;
    call_erase_range 1 3; call_erase 0; call_emplace_back_body 7%positive ].

(** What a call may change of a widget: neither the bounds nor the flag. *)
Definition same_frame (w w' : widget) : Prop :=
  _bounds w' = _bounds w /\ _dirty w' = _dirty w.

(** The members that only read: at, operator[], front, back, size, begin,
    end. *)
Definition accessor (m : method) : bool :=
  match m with
  | call_at _ | call_subscript _ | call_front | call_back
  | call_size | call_begin | call_end => true
  | _ => false
  end.

End WidgetVocabulary.

(** * Properties *)

(** ** The frame cycle *)

Section FrameCycle.
Import Vec Render Context.

Lemma vertices_expected : vertices = expected_triangle.
Proof. reflexivity. Qed.

(** The braces of context.cpp select the constructors that [vertices] uses:
    two arguments the variadic one of vec2, one argument the broadcast one
    of color. *)
Lemma vertices_constructors (x y : float) :
  construct 2 [x; y] = WellFormed (tvec_variadic 2 [x; y])
  /\ construct 4 [f_one] = WellFormed (tvec_broadcast 4 f_one).
Proof. split; reflexivity. Qed.

(** On any backend, draw() is begin_pass() followed by draw(vertices). *)
Lemma draw_replay {R} {B : renderer R} (backend : R) :
  draw (make_context backend)
  = Ok tt (make_context
             (replay [call_begin_pass; call_draw expected_triangle] backend)).
Proof. reflexivity. Qed.

(** C1 (as the code behaves): on a recording backend, one call of
    context.draw() appends begin_pass() and one draw of the three-vertex
    triangle, and nothing else; the log is not the one that ends with
    end_pass(), which the claim expects. *)
Theorem draw_omits_end_pass (log : recorder) :
  draw (make_context log)
  = Ok tt (make_context (log ++ [call_begin_pass; call_draw expected_triangle]))
  /\ log ++ [call_begin_pass; call_draw expected_triangle]
     <> log ++ [call_begin_pass; call_draw expected_triangle; call_end_pass].
Proof.
  split.
  - unfold draw, make_context, mbind, outcome_bind, bind, through_renderer.
    cbn. now rewrite <- app_assoc.
  - intros Heq. apply app_inv_head in Heq. discriminate Heq.
Qed.

(** C9: update() returns normally with the context as it was; the backend
    state is the one that no call at all leaves behind, and a recording
    backend has recorded nothing. *)
Theorem update_is_no_op {R} {B : renderer R} (this : context R) :
  update this = Ok tt this
  /\ update this = Ok tt (mk_context (replay [] <$> _renderer this))
  /\ forall log : recorder, update (make_context log) = Ok tt (make_context log).
Proof.
  repeat split.
  destruct this as [[r|]]; reflexivity.
Qed.

End FrameCycle.

(** ** Construction and negation of vectors *)

Section VectorInterface.
Import Vec.

Lemma resolve_cases (N k : nat) :
  resolve N k =
    match k with
    | 0 => WellFormed ctor_default
    | 1 => WellFormed ctor_broadcast
    | _ => if k =? N then WellFormed ctor_variadic else IllFormed
    end.
Proof.
  destruct k as [|[|k]]; [reflexivity | reflexivity |].
  unfold resolve, candidates. rewrite !filter_cons, filter_nil. unfold viable.
  change (S (S k) =? 0) with false. change (S (S k) =? 1) with false.
  destruct (S (S k) =? N);
    repeat case_decide; try discriminate; try reflexivity; congruence.
Qed.

(** Where two constructors are viable for the same arguments they build the
    same vector. *)
Lemma one_argument_agree {T} {ST : Scalar T} (value : T) :
  tvec_broadcast 1 value = tvec_variadic 1 [value].
Proof. reflexivity. Qed.

Lemma no_argument_agree {T} {ST : Scalar T} :
  @tvec_default T ST 0 = tvec_variadic 0 [].
Proof. reflexivity. Qed.

(** With the right number of arguments the vector holds them in order. *)
Lemma construct_exact_arity {T} {ST : Scalar T} (N : nat) (args : list T) :
  length args = N ->
  exists v, construct N args = WellFormed v /\ _elements v = args.
Proof.
  intros <-. unfold construct. rewrite resolve_cases.
  destruct args as [|a [|b args]]; cbn [length].
  - eexists; split; reflexivity.
  - eexists; split; reflexivity.
  - rewrite Nat.eqb_refl. eexists; split; reflexivity.
Qed.

(** Every vector that a constructor builds holds N elements. *)
Lemma construct_wf {T} {ST : Scalar T} (N : nat) (args : list T) (v : tvec T N) :
  construct N args = WellFormed v -> tvec_wf v.
Proof.
  unfold construct, tvec_wf. rewrite resolve_cases.
  destruct args as [|a [|b args]]; cbn [length].
  - intros [= <-]. apply length_replicate.
  - intros [= <-]. apply length_replicate.
  - destruct (Nat.eqb_spec (S (S (length args))) N) as [He | _];
      [| discriminate]. now intros [= <-].
Qed.

(** C5 (counterexample): one scalar argument for a vector of dimension
    four is accepted; it is color{1.f} of context::draw, and the vector is
    (1,1,1,1). *)
Lemma construct_color_one_argument :
  length [f_one] <> 4
  /\ construct 4 [f_one] = WellFormed (mk_tvec [f_one; f_one; f_one; f_one]).
Proof. split; [discriminate | reflexivity]. Qed.

(** C5 (amended): a number of scalar arguments other than N is rejected
    when it is two or more; no argument selects the default constructor
    (all elements zero) and one argument the broadcast constructor (all
    elements that value).  The decision reads the number of arguments and
    N, never a value. *)
Theorem construct_wrong_arity {T} {ST : Scalar T} (N : nat) (args : list T) :
  length args <> N ->
  construct N args =
    match args with
    | [] => WellFormed (mk_tvec (replicate N s_zero))
    | [value] => WellFormed (mk_tvec (replicate N value))
    | _ :: _ :: _ => IllFormed
    end
  /\ well_formed (construct N args) = well_formed (resolve N (length args)).
Proof.
  intros Hne. unfold construct. rewrite resolve_cases.
  destruct args as [|a [|b args]]; cbn [length] in *.
  - split; reflexivity.
  - split; reflexivity.
  - destruct (Nat.eqb_spec (S (S (length args))) N) as [He | _];
      [contradiction | split; reflexivity].
Qed.

Lemma construct_wrong_arity_witness :
  construct 2 [f_one; f_one; f_one] = IllFormed
  /\ well_formed (construct 2 [f_one; f_one; f_one]) = well_formed (resolve 2 3).
Proof.
  apply (construct_wrong_arity 2 [f_one; f_one; f_one]). cbn. lia.
Defined.

(** C6: operator-() exists exactly for the element types that are not
    unsigned: it is ill-formed for unsigned int and well-formed for int and
    float.  The decision is made on the type; where the operator exists, no
    run of it ends in an exception. *)
Theorem negate_only_signed {T} {ST : Scalar T} (N : nat) :
  well_formed (operator_negate N) = negb is_unsigned
  /\ match operator_negate N with
     | WellFormed f =>
         is_unsigned = false /\ forall this objects, raised (f this objects) = false
     | IllFormed => is_unsigned = true
     end
  /\ @operator_negate Z unsigned_int N = IllFormed
  /\ well_formed (@operator_negate Z signed_int N) = true
  /\ well_formed (@operator_negate float float_scalar N) = true.
Proof.
  unfold operator_negate.
  repeat split; try reflexivity.
  - destruct is_unsigned; reflexivity.
  - destruct is_unsigned; cbn; [reflexivity |].
    split; [reflexivity |]. intros this objects.
    unfold operator_times_assign_scalar_ref, returning_this.
    destruct (objects !! this) as [contents|]; [|reflexivity].
    destruct (operator_times_assign_scalar _ _ contents); reflexivity.
Qed.

(** The range-based loop, element by element. *)
Lemma range_for_Forall2 {T} (body : T -> option T) (l l' : list T) :
  range_for body l = Some l' <-> Forall2 (fun x x' => body x = Some x') l l'.
Proof.
  revert l'. induction l as [|x l IH]; intros l'; cbn.
  - split.
    + intros [= <-]. constructor.
    + intros H. inversion H. reflexivity.
  - split.
    + destruct (body x) as [x'|] eqn:Hx; [|discriminate].
      destruct (range_for body l) as [r|] eqn:Hr; [|discriminate].
      intros [= <-]. constructor; [assumption | now apply IH].
    + intros H. inversion H as [|? x' ? r Hx Hr]; subst.
      rewrite Hx. apply IH in Hr. now rewrite Hr.
Qed.

Lemma range_for_defined {T} (body : T -> option T) (l : list T) :
  Forall (fun x => is_Some (body x)) l -> is_Some (range_for body l).
Proof.
  induction 1 as [|x l [x' Hx] _ [r Hr]]; cbn.
  - eexists; reflexivity.
  - rewrite Hx, Hr. eexists; reflexivity.
Qed.

(** The loop with an operand outside [*this]: the elements one by one. *)
Lemma range_for_ref_outside {T} (op : T -> T -> option T) (s : T) (todo : list T) :
  forall done : list T,
    range_for_ref (length todo) (length done) op (outside s) (done ++ todo)
    = (done ++.) <$> range_for (fun e => op e s) todo.
Proof.
  induction todo as [|x todo IH]; intros done.
  - cbn. now rewrite app_nil_r.
  - cbn [length range_for_ref range_for read].
    rewrite (list_lookup_middle done todo x (length done) eq_refl).
    destruct (op x s) as [z|]; [| reflexivity].
    replace (<[length done := z]> (done ++ x :: todo))
      with ((done ++ [z]) ++ todo).
    2:{ rewrite <- (Nat.add_0_r (length done)) at 1.
        rewrite insert_app_r. cbn. now rewrite <- app_assoc. }
    replace (S (length done)) with (length (done ++ [z]))
      by (rewrite length_app; cbn; lia).
    rewrite IH. destruct (range_for _ todo); cbn; [| reflexivity].
    now rewrite <- app_assoc.
Qed.

Lemma compound_scalar_outside {T} (N : nat) (op : T -> T -> option T) (s : T)
    (this : tvec T N) :
  compound_scalar N op (outside s) this
  = mk_tvec <$> range_for (fun e => op e s) (_elements this).
Proof.
  unfold compound_scalar.
  pose proof (range_for_ref_outside op s (_elements this) []) as Hloop.
  cbn [app length] in Hloop. rewrite Hloop.
  now destruct (range_for _ (_elements this)).
Qed.

Lemma Forall2_diagonal {T} (P : T -> T -> Prop) (l : list T) :
  Forall2 P l l <-> Forall (fun x => P x x) l.
Proof.
  induction l as [|x l IH].
  - split; constructor.
  - split; intros H; inversion H; subst; constructor; try assumption;
      now apply IH.
Qed.

(** The only int that is its own product with -1 is zero. *)
Lemma int_negation_fixed (x : Z) :
  @s_mul Z signed_int x (@s_minus_one Z signed_int) = Some x <-> x = 0%Z.
Proof.
  cbn. unfold int_checked. split.
  - destruct (int_rangeb _); [|discriminate]. intros [= H]. lia.
  - intros ->. reflexivity.
Qed.

(** C10 (counterexample): the int vector (0,0) holds the elements it held
    before once -v has been evaluated. *)
Lemma negate_zero_vector_unchanged :
  exists f objects',
    @operator_negate Z signed_int 2 = WellFormed f
    /\ f 1%positive {[ 1%positive := mk_tvec [0; 0]%Z ]} = Ok 1%positive objects'
    /\ objects' !! 1%positive = Some (mk_tvec [0; 0]%Z).
Proof.
  eexists _, _. split; [reflexivity |]. split; [reflexivity |].
  apply lookup_insert_eq.
Qed.

(** C10 (amended): for an element type that is not unsigned and a vector
    whose every element has a defined product with -1, -v replaces the
    contents of the operand itself by the element-wise products, leaves
    every other object alone, and returns the location of the operand; the
    operand then holds its original elements exactly when every element is
    its own product with -1. *)
Theorem negate_mutates_operand {T} {ST : Scalar T} (N : nat)
    (this : loc) (objects : store T N) (v : tvec T N) :
  is_unsigned = false ->
  objects !! this = Some v ->
  Forall (fun x => is_Some (s_mul x s_minus_one)) (_elements v) ->
  exists f v',
    operator_negate N = WellFormed f
    /\ f this objects = Ok this (<[this := v']> objects)
    /\ Forall2 (fun x x' => s_mul x s_minus_one = Some x')
         (_elements v) (_elements v')
    /\ (v' = v <->
        Forall (fun x => s_mul x s_minus_one = Some x) (_elements v)).
Proof.
  intros Hsigned Hthis Hdefined.
  destruct (range_for_defined _ _ Hdefined) as [l' Hl'].
  exists (fun this => operator_times_assign_scalar_ref N (outside s_minus_one) this),
         (mk_tvec l').
  split; [unfold operator_negate; now rewrite Hsigned |].
  split.
  { unfold operator_times_assign_scalar_ref, returning_this.
    rewrite Hthis. unfold operator_times_assign_scalar.
    now rewrite compound_scalar_outside, Hl'. }
  apply range_for_Forall2 in Hl'. split; [exact Hl' |].
  destruct v as [l]; cbn in *. split.
  - intros [= ->]. now apply Forall2_diagonal in Hl'.
  - intros Hfixed. f_equal.
    clear -Hl' Hfixed. induction Hl' as [|x x' l l' Hx _ IH].
    + reflexivity.
    + inversion Hfixed as [|? ? Hx' Hrest]; subst.
      rewrite Hx in Hx'. injection Hx' as ->. f_equal. now apply IH.
Qed.

Lemma negate_mutates_operand_witness :
  exists f v',
    @operator_negate Z signed_int 2 = WellFormed f
    /\ f 1%positive {[ 1%positive := mk_tvec [3; -4]%Z ]}
       = Ok 1%positive (<[1%positive := v']> {[ 1%positive := mk_tvec [3; -4]%Z ]})
    /\ Forall2 (fun x x' => @s_mul Z signed_int x (@s_minus_one Z signed_int) = Some x')
         [3; -4]%Z (_elements v')
    /\ (v' = mk_tvec [3; -4]%Z <->
        Forall (fun x => @s_mul Z signed_int x (@s_minus_one Z signed_int) = Some x)
          [3; -4]%Z).
Proof.
  apply (@negate_mutates_operand Z signed_int 2 1%positive
           {[ 1%positive := mk_tvec [3; -4]%Z ]} (mk_tvec [3; -4]%Z)).
  - reflexivity.
  - apply lookup_singleton_eq.
  - repeat constructor; eexists; reflexivity.
Defined.

End VectorInterface.

(** ** The widget container *)

Section WidgetContainer.
Import Vec Widget.

(** What the two statements of the body of emplace_back do when they are
    run: the new object is the last child and is what back() yields. *)
Lemma emplace_back_body_appends (fresh : loc) (w : widget) :
  emplace_back_body fresh w
  = Ok (Some fresh)
       (mk_widget (_dirty w) (_bounds w) (_children w ++ [Some fresh])).
Proof.
  unfold emplace_back_body, mbind, outcome_bind, bind, on_children.
  unfold StdVector.emplace_back, StdVector.back. cbn [_children _dirty _bounds].
  now rewrite last_snoc.
Qed.

(** C2 (as the code behaves): no instantiation of emplace_back<T> is
    well-formed, whatever the widget subtype: the T& that it returns cannot
    be bound to the std::shared_ptr<widget> that _children.back() yields.
    The statements of the body, were they run, would append the new object
    as the last child and yield the pointer to it. *)
Theorem emplace_back_ill_formed (T : nat) :
  binds_reference (ty_subtype T) ty_shared_ptr_widget = false
  /\ emplace_back T = IllFormed
  /\ forall (fresh : loc) (w : widget),
       exists w', emplace_back_body fresh w = Ok (Some fresh) w'
                  /\ _children w' = _children w ++ [Some fresh]
                  /\ last (_children w') = Some (Some fresh)
                  /\ length (_children w') = S (length (_children w)).
Proof.
  split; [reflexivity |]. split; [reflexivity |].
  intros fresh w. eexists. split; [apply emplace_back_body_appends |].
  cbn [_children]. split; [reflexivity |]. split; [apply last_snoc |].
  rewrite length_app. cbn. lia.
Qed.

(** C7: at(pos) with pos >= size() raises out_of_range and leaves the
    widget as it was; with pos < size() it returns the child at pos;
    operator[] returns the same child in range and is undefined out of
    range. *)
Theorem at_checked_subscript_unchecked (w : widget) (pos : size_type) :
  (length (_children w) <= pos ->
     at_ pos w = Raise out_of_range w /\ subscript pos w = UB)
  /\ (pos < length (_children w) ->
      exists child,
        _children w !! pos = Some child
        /\ at_ pos w = Ok child w /\ subscript pos w = Ok child w).
Proof.
  destruct w as [d b cs]. unfold at_, subscript, on_children; cbn.
  unfold StdVector.at_, StdVector.subscript. split.
  - intros Hge. apply lookup_ge_None_2 in Hge. now rewrite Hge.
  - intros Hlt. apply lookup_lt_is_Some_2 in Hlt as [child Hchild].
    exists child. now rewrite Hchild.
Qed.

Lemma at_checked_subscript_unchecked_witness :
  (at_ 2 (mk_widget true (tvec_default 2) [Some 7%positive; None])
     = Raise out_of_range (mk_widget true (tvec_default 2) [Some 7%positive; None])
   /\ subscript 2 (mk_widget true (tvec_default 2) [Some 7%positive; None]) = UB)
  /\ exists child,
       [Some 7%positive; None] !! 0 = Some child
       /\ at_ 0 (mk_widget true (tvec_default 2) [Some 7%positive; None])
          = Ok child (mk_widget true (tvec_default 2) [Some 7%positive; None])
       /\ subscript 0 (mk_widget true (tvec_default 2) [Some 7%positive; None])
          = Ok child (mk_widget true (tvec_default 2) [Some 7%positive; None]).
Proof.
  pose proof (at_checked_subscript_unchecked
                (mk_widget true (tvec_default 2) [Some 7%positive; None]) 2) as [Hout _].
  pose proof (at_checked_subscript_unchecked
                (mk_widget true (tvec_default 2) [Some 7%positive; None]) 0) as [_ Hin].
  split; [apply Hout; cbn; lia | apply Hin; cbn; lia].
Defined.

End WidgetContainer.

(** ** The dirty flag *)

Section DirtyFlag.
Import Vec Render Context Widget App.

(** Both constructors leave the flag set. *)
Lemma constructed_dirty (bounds : vec2) :
  _dirty widget_default = true /\ _dirty (widget_bounds bounds) = true.
Proof. split; reflexivity. Qed.

(** A call that goes to the child vector ends, normally or with an
    exception, in a widget with the flag and the bounds it had. *)
Lemma on_children_frame {A} (member : M (list widget_pointer) A) (w : widget) :
  match on_children member w with
  | Ok _ w' | Raise _ w' => _dirty w' = _dirty w /\ _bounds w' = _bounds w
  | UB => True
  end.
Proof.
  unfold on_children. destruct (member (_children w)); cbn; auto.
Qed.

Lemma bind_frame {S A B} (P : S -> S -> Prop) (m : M S A) (k : A -> M S B) (s : S) :
  (forall s1 s2 s3, P s1 s2 -> P s2 s3 -> P s1 s3) ->
  match m s with Ok _ s' | Raise _ s' => P s s' | UB => True end ->
  (forall a s', match k a s' with Ok _ s'' | Raise _ s'' => P s' s'' | UB => True end) ->
  match (m ≫= k) s with Ok _ s' | Raise _ s' => P s s' | UB => True end.
Proof.
  intros Htrans Hm Hk. unfold mbind, outcome_bind, bind.
  destruct (m s) as [a s'| e s' |]; [| exact Hm | exact I].
  specialize (Hk a s'). destruct (k a s'); eauto.
Qed.

Lemma on_children_flag {A} (member : M (list widget_pointer) A) (w : widget) :
  match on_children member w with
  | Ok _ w' | Raise _ w' => same_flag w w'
  | UB => True
  end.
Proof.
  pose proof (on_children_frame member w) as H.
  destruct (on_children member w); unfold same_flag; tauto.
Qed.

(** No member function of widget reads or writes the flag. *)
Lemma invoke_dirty (m : method) (w : widget) :
  match invoke m w with
  | Ok _ w' | Raise _ w' => _dirty w' = _dirty w
  | UB => True
  end.
Proof.
  assert (Htrans : forall s1 s2 s3 : widget,
             same_flag s1 s2 -> same_flag s2 s3 -> same_flag s1 s3)
    by (unfold same_flag; congruence).
  change (match invoke m w with
          | Ok _ w' | Raise _ w' => same_flag w w'
          | UB => True
          end).
  destruct m; cbn [invoke];
    unfold at_, subscript, front, back, size, begin_, end_, clear, insert,
           erase, erase_range, push_back, emplace_back_body;
    repeat first
      [ apply on_children_flag
      | apply (bind_frame same_flag); [exact Htrans | | intros ? ?]
      | reflexivity ].
Qed.

(** One action keeps the flags set. *)
Lemma act_keeps_dirty {R} {B : renderer R} (a : action) (w w' : world R) :
  (forall l object, widgets w !! l = Some object -> _dirty object = true) ->
  (act a w = Ok tt w' \/ exists e, act a w = Raise e w') ->
  forall l object, widgets w' !! l = Some object -> _dirty object = true.
Proof.
  intros Hinv Hact l object.
  destruct a as [fresh | fresh bounds | this m | |]; cbn [act] in Hact.
  - unfold construct_at in Hact.
    destruct (widgets w !! fresh) eqn:Hfresh;
      [destruct Hact as [Hact | [e Hact]]; discriminate Hact |].
    destruct Hact as [[= <-] | [e Hact]]; [| discriminate Hact]. cbn.
    rewrite lookup_insert. case_decide as Hl.
    + intros [= <-]. reflexivity.
    + apply Hinv.
  - unfold construct_at in Hact.
    destruct (widgets w !! fresh) eqn:Hfresh;
      [destruct Hact as [Hact | [e Hact]]; discriminate Hact |].
    destruct Hact as [[= <-] | [e Hact]]; [| discriminate Hact]. cbn.
    rewrite lookup_insert. case_decide as Hl.
    + intros [= <-]. reflexivity.
    + apply Hinv.
  - unfold in_widget in Hact.
    destruct (widgets w !! this) as [obj|] eqn:Hthis;
      [| destruct Hact as [Hact | [e Hact]]; discriminate Hact].
    pose proof (invoke_dirty m obj) as Hflag.
    destruct (invoke m obj) as [[] obj' | e' obj' |];
      destruct Hact as [Hact | [e Hact]]; simplify_eq; cbn;
      (rewrite lookup_insert; case_decide as Hl;
       [ intros [= <-]; rewrite Hflag; now apply (Hinv this)
       | apply Hinv ]).
  - unfold in_context in Hact.
    destruct (draw (the_context w)) as [[] c | e' c |];
      destruct Hact as [Hact | [e Hact]]; simplify_eq; apply Hinv.
  - unfold in_context in Hact.
    destruct (update (the_context w)) as [[] c | e' c |];
      destruct Hact as [Hact | [e Hact]]; simplify_eq; apply Hinv.
Qed.

(** C8: in every world that a program reaches by constructing widgets,
    calling their members (sequence access, insert, erase, push_back, the
    body of emplace_back, clear) and calling draw() and update() on the
    context, every widget has its dirty flag set; and whatever is done
    next, ending normally or in an exception, every widget keeps the flag
    it had. *)
Theorem dirty_invariant {R} {B : renderer R} (w : world R) :
  reachable w ->
  (forall (l : loc) (object : widget),
     widgets w !! l = Some object -> _dirty object = true)
  /\ (forall (a : action) (w' : world R),
        (act a w = Ok tt w' \/ exists e, act a w = Raise e w') ->
        forall (l : loc) (object object' : widget),
          widgets w !! l = Some object -> widgets w' !! l = Some object' ->
          _dirty object' = _dirty object).
Proof.
  intros Hreach.
  assert (Hinv : forall l object,
             widgets w !! l = Some object -> _dirty object = true).
  { induction Hreach as [backend | a w w' _ IH Hact | a e w w' _ IH Hact].
    - intros l object Hl. cbn in Hl. rewrite lookup_empty in Hl. discriminate Hl.
    - apply (act_keeps_dirty a w w' IH). now left.
    - apply (act_keeps_dirty a w w' IH). right. now exists e. }
  split; [exact Hinv |].
  intros a w' Hact l object object' Hl Hl'.
  rewrite (Hinv l object Hl).
  exact (act_keeps_dirty a w w' Hinv Hact l object' Hl').
Qed.

(** A run: a context on a recording backend, two widgets, the second
    appended to the first, one draw(). *)
Lemma dirty_invariant_witness :
  _dirty (mk_widget true (tvec_default 2) [Some 2%positive]) = true.
Proof.
  pose proof (reach_initial ([] : recorder)) as H0.
  pose proof (reach_ok (new_widget 1%positive) _ _ H0 eq_refl) as H1.
  pose proof (reach_ok (new_widget 2%positive) _ _ H1 eq_refl) as H2.
  pose proof (reach_ok (member 1%positive (call_push_back (Some 2%positive)))
                _ _ H2 eq_refl) as H3.
  pose proof (reach_ok context_draw _ _ H3 eq_refl) as H4.
  exact (proj1 (dirty_invariant _ H4) 1%positive _ eq_refl).
Defined.

End DirtyFlag.

(** ** Vector arithmetic *)

Section VectorArithmetic.
Import Vec.

Lemma index_loop_pairwise {T} (N : nat) (op : T -> T -> option T)
    (rhs : tvec T N) (todo done rdone rtodo : list T) :
  _elements rhs = rdone ++ rtodo ->
  length done = length rdone ->
  length todo = length rtodo ->
  index_loop (length todo) (length done) (compound_at N op rhs) (done ++ todo)
  = (done ++.) <$> pairwise op todo rtodo.
Proof.
  revert done rdone rtodo.
  induction todo as [|x todo IH]; intros done rdone rtodo Hrhs Hdone Htodo.
  - cbn. now rewrite app_nil_r.
  - destruct rtodo as [|y rtodo]; [discriminate Htodo |].
    cbn [length index_loop pairwise]. unfold compound_at at 1, subscript.
    rewrite (list_lookup_middle done todo x (length done) eq_refl).
    rewrite Hrhs, (list_lookup_middle rdone rtodo y (length done)) by congruence.
    destruct (op x y) as [z|]; [|reflexivity].
    replace (<[length done := z]> (done ++ x :: todo))
      with ((done ++ [z]) ++ todo).
    2:{ rewrite <- (Nat.add_0_r (length done)) at 1.
        rewrite insert_app_r. cbn. now rewrite <- app_assoc. }
    replace (S (length done)) with (length (done ++ [z]))
      by (rewrite length_app; cbn; lia).
    rewrite (IH (done ++ [z]) (rdone ++ [y]) rtodo).
    + destruct (pairwise op todo rtodo); cbn; [|reflexivity].
      now rewrite <- app_assoc.
    + now rewrite <- app_assoc.
    + rewrite !length_app; cbn; lia.
    + cbn in Htodo. lia.
Qed.

Lemma compound_vec_pairwise {T} (N : nat) (op : T -> T -> option T)
    (rhs this : tvec T N) :
  tvec_wf this -> tvec_wf rhs ->
  compound_vec N op rhs this
  = mk_tvec <$> pairwise op (_elements this) (_elements rhs).
Proof.
  unfold tvec_wf, compound_vec. intros Hthis Hrhs.
  pose proof (index_loop_pairwise N op rhs (_elements this) [] [] (_elements rhs)
                eq_refl eq_refl) as H.
  cbn [app length] in H. rewrite Hthis in H. rewrite H by congruence.
  now destruct (pairwise op (_elements this) (_elements rhs)).
Qed.

(** The compound assignments keep the dimension. *)
Lemma pairwise_length {T} (op : T -> T -> option T) (l r w : list T) :
  pairwise op l r = Some w -> length w = length l.
Proof.
  revert r w. induction l as [|x l IH]; intros [|y r] w; cbn; try discriminate.
  - now intros [= <-].
  - now intros [= <-].
  - destruct (op x y); [|discriminate].
    destruct (pairwise op l r) as [w'|] eqn:Hw; [|discriminate].
    intros [= <-]. cbn. f_equal. eauto.
Qed.

Lemma compound_vec_wf {T} (N : nat) (op : T -> T -> option T)
    (rhs this result : tvec T N) :
  tvec_wf this -> tvec_wf rhs ->
  compound_vec N op rhs this = Some result -> tvec_wf result.
Proof.
  intros Hthis Hrhs. rewrite compound_vec_pairwise by assumption.
  destruct (pairwise op _ _) as [w|] eqn:Hw; [|discriminate].
  intros [= <-]. unfold tvec_wf in *. cbn.
  now rewrite (pairwise_length _ _ _ _ Hw).
Qed.

Lemma range_for_ref_length {T} (op : T -> T -> option T) (rhs : operand T)
    (count : nat) :
  forall (position : nat) (elements result : list T),
    range_for_ref count position op rhs elements = Some result ->
    length result = length elements.
Proof.
  induction count as [|count IH]; intros position elements result; cbn.
  - now intros [= <-].
  - destruct (elements !! position) as [x|]; [| discriminate].
    destruct (read rhs elements) as [y|]; [| discriminate].
    destruct (op x y) as [z|]; [| discriminate].
    intros Hrest. apply IH in Hrest. now rewrite length_insert in Hrest.
Qed.

Lemma compound_scalar_wf {T} (N : nat) (op : T -> T -> option T)
    (rhs : operand T) (this result : tvec T N) :
  tvec_wf this -> compound_scalar N op rhs this = Some result -> tvec_wf result.
Proof.
  unfold compound_scalar, tvec_wf. intros Hthis.
  destruct (range_for_ref _ _ _ _ _) as [w|] eqn:Hw; [|discriminate].
  intros [= <-]. cbn. apply range_for_ref_length in Hw. congruence.
Qed.





(** *** unsigned int *)

Lemma uint_plus_minus (x y : Z) :
  uint_range x ->
  exists z, @s_add Z unsigned_int x y = Some z /\ @s_sub Z unsigned_int z y = Some x.
Proof.
  unfold uint_range. intros Hx. eexists. split; [reflexivity |]. cbn.
  f_equal. unfold wrap, uint_modulus in *.
  rewrite Zminus_mod_idemp_l. replace (x + y - y)%Z with x by lia.
  now apply Z.mod_small.
Qed.

Lemma uint_times_divide (x s : Z) :
  s <> 0%Z -> uint_range (x * s) ->
  exists z, @s_mul Z unsigned_int x s = Some z /\ @s_div Z unsigned_int z s = Some x.
Proof.
  unfold uint_range. intros Hs Hxs. eexists. split; [reflexivity |]. cbn.
  unfold wrap, uint_div. rewrite Z.mod_small by exact Hxs.
  destruct (Z.eqb_spec s 0) as [-> | _]; [contradiction |].
  now rewrite Z.quot_mul.
Qed.

(** *** int *)

Lemma int_checked_range (x : Z) : int_range x -> int_checked x = Some x.
Proof.
  unfold int_range, int_checked, int_rangeb. intros [Hlo Hhi].
  apply Z.leb_le in Hlo, Hhi. now rewrite Hlo, Hhi.
Qed.

Lemma int_plus_minus (x y : Z) :
  int_range x -> int_range (x + y) ->
  exists z, @s_add Z signed_int x y = Some z /\ @s_sub Z signed_int z y = Some x.
Proof.
  intros Hx Hxy. exists (x + y)%Z. cbn. rewrite (int_checked_range _ Hxy).
  split; [reflexivity |]. replace (x + y - y)%Z with x by lia.
  now apply int_checked_range.
Qed.

Lemma int_times_divide (x s : Z) :
  s <> 0%Z -> int_range x -> int_range (x * s) ->
  exists z, @s_mul Z signed_int x s = Some z /\ @s_div Z signed_int z s = Some x.
Proof.
  intros Hs Hx Hxs. exists (x * s)%Z. cbn. rewrite (int_checked_range _ Hxs).
  split; [reflexivity |]. unfold int_div.
  destruct (Z.eqb_spec s 0) as [-> | _]; [contradiction |].
  rewrite Z.quot_mul by assumption. now apply int_checked_range.
Qed.

Lemma Forall_Forall2_same_length {A} (P : A -> Prop) (l r : list A) :
  length l = length r -> Forall P l -> Forall2 (fun x _ => P x) l r.
Proof.
  revert r. induction l as [|x l IH]; intros [|y r] Hlen Hall;
    try discriminate Hlen; constructor.
  - now inversion Hall.
  - apply IH; [now injection Hlen | now inversion Hall].
Qed.

(** Over unsigned int, (u * s) / s is not u when a product wraps:
    u = (2^31, 0) and s = 2 give (0, 0). *)
Lemma times_divide_wraps :
  Forall uint_range [2147483648; 0]%Z
  /\ 2%Z <> 0%Z
  /\ (operator_times_scalar 2 (mk_tvec [2147483648; 0]%Z) 2%Z
        ≫= fun w => operator_divide_scalar 2 w 2%Z)
     = Some (mk_tvec [0; 0]%Z)
  /\ @mk_tvec Z 2 [0; 0]%Z <> mk_tvec [2147483648; 0]%Z.
Proof.
  split; [repeat constructor; unfold uint_modulus; lia |].
  split; [discriminate |]. split; [reflexivity | discriminate].
Qed.

(** Over float the sum 1 + 2^25 is rounded to 2^25, and (u + v) - v is 0. *)
Lemma float_plus_minus_absorbs :
  (operator_plus 1 (mk_tvec [f_one]) (mk_tvec [S754_finite false 8388608 2])
     ≫= fun w => operator_minus 1 w (mk_tvec [S754_finite false 8388608 2]))
  = Some (mk_tvec [f_zero]).
Proof. reflexivity. Qed.

(** Over float the product 2^127 * 4 overflows to infinity, and
    (u * s) / s is infinite. *)
Lemma float_times_divide_overflows :
  (operator_times_scalar 1 (mk_tvec [S754_finite false 8388608 104])
     (S754_finite false 8388608 (-21))
     ≫= fun w => operator_divide_scalar 1 w (S754_finite false 8388608 (-21)))
  = Some (mk_tvec [S754_infinity false]).
Proof. reflexivity. Qed.






(** *** The integer types of every width *)

Section Widths.
Import VecIntegers.

Lemma width_facts (w : Z) :
  In w widths ->
  (0 < 2 ^ (w - 1))%Z /\ (2 ^ w = 2 * 2 ^ (w - 1))%Z
  /\ ((w <? int_bits)%Z = true -> (2 ^ w <= 65536)%Z).
Proof.
  intros [<- | [<- | [<- | [<- | []]]]]; repeat split; try reflexivity;
    try discriminate; cbn; lia.
Qed.

Lemma int_rangeb_intro (r : Z) :
  (- 2147483648 <= r <= 2147483647)%Z -> int_rangeb r = true.
Proof.
  intros [Hlo Hhi]. unfold int_rangeb, int_min, int_max.
  apply andb_true_intro. split; apply Z.leb_le; lia.
Qed.

Lemma unsigned_result_small (w r : Z) :
  In w widths -> unsigned_range w r -> unsigned_result w r = Some r.
Proof.
  intros Hw Hr. destruct (width_facts w Hw) as (Hpos & Hdouble & Hnarrow).
  unfold unsigned_result, unsigned_range, to_unsigned in *.
  rewrite (Z.mod_small r) by exact Hr.
  destruct (w <? int_bits)%Z; [| reflexivity].
  specialize (Hnarrow eq_refl). now rewrite int_rangeb_intro by lia.
Qed.






(** At 32 bits the two families are unsigned int and int as modelled
    above (the quotient on the values of the type). *)
Lemma bits_32_agree (x y : Z) :
  (@s_add Z (unsigned_bits 32) x y = @s_add Z unsigned_int x y
   /\ @s_sub Z (unsigned_bits 32) x y = @s_sub Z unsigned_int x y
   /\ @s_mul Z (unsigned_bits 32) x y = @s_mul Z unsigned_int x y
   /\ (uint_range x -> uint_range y ->
       @s_div Z (unsigned_bits 32) x y = @s_div Z unsigned_int x y))
  /\ (@s_add Z (signed_bits 32) x y = @s_add Z signed_int x y
      /\ @s_sub Z (signed_bits 32) x y = @s_sub Z signed_int x y
      /\ @s_mul Z (signed_bits 32) x y = @s_mul Z signed_int x y
      /\ @s_div Z (signed_bits 32) x y = @s_div Z signed_int x y).
Proof.
  assert (Hsame : forall r, signed_result 32 r = int_checked r).
  { intros r. unfold signed_result, int_checked, signed_rangeb, int_rangeb,
      int_min, int_max. cbn [Z.ltb int_bits Z.compare Pos.compare Pos.compare_cont].
    change (2 ^ (32 - 1))%Z with 2147483648%Z. change (2 ^ 31)%Z with 2147483648%Z.
    destruct (Z.leb_spec (-2147483648) r), (Z.ltb_spec r 2147483648),
      (Z.leb_spec r (2147483648 - 1)); cbn; try reflexivity; lia. }
  split.
  - split; [reflexivity |]. split; [reflexivity |]. split; [reflexivity |].
    intros Hx Hy. cbn [s_div unsigned_bits unsigned_int].
    unfold quotient, uint_div, uint_range, uint_modulus in *.
    destruct (Z.eqb_spec y 0) as [-> | Hy0]; [reflexivity |].
    apply (unsigned_result_small 32); [cbn; tauto |].
    unfold unsigned_range. split.
    + apply Z.quot_pos; lia.
    + apply Z.le_lt_trans with x; [| lia]. apply Z.quot_le_upper_bound; nia.
  - cbn [s_add s_sub s_mul s_div signed_bits signed_int].
    repeat split; try apply Hsame.
    unfold quotient, int_div. destruct (y =? 0)%Z; [reflexivity | apply Hsame].
Qed.



End Widths.

End VectorArithmetic.

(** ** Children and the calls that inserted them *)

Section InsertionOrder.
Import Vec Widget.

(** One call on the widget and on the ledger. *)
Lemma invoke_ledger_step (stamp : nat) (m : method) (w : widget) (led : list entry) :
  builder m = true ->
  _children w = led.*2 ->
  match invoke m w, ledger_step stamp m led with
  | Ok _ w', Some led' => _children w' = led'.*2
  | UB, None => True
  | _, _ => False
  end.
Proof.
  intros Hb Hc. destruct m; try discriminate Hb; cbn [invoke ledger_step];
    unfold insert, erase, erase_range, push_back, emplace_back_body,
           mbind, outcome_bind, bind, on_children, mret, outcome_ret, ret,
           StdVector.insert, StdVector.erase, StdVector.erase_range,
           StdVector.push_back, StdVector.emplace_back, StdVector.back;
    rewrite Hc, ?length_fmap.
  - repeat case_decide; cbn; try tauto.
    now rewrite fmap_app, fmap_cons, fmap_take, fmap_drop.
  - repeat case_decide; cbn; try tauto.
    now rewrite fmap_app, fmap_take, fmap_drop.
  - repeat case_decide; cbn; try tauto.
    now rewrite fmap_app, fmap_take, fmap_drop.
  - cbn. now rewrite fmap_app.
  - cbn. rewrite last_snoc. cbn. now rewrite fmap_app.
Qed.

Lemma run_ledger (ms : list method) :
  forall (stamp : nat) (w w' : widget) (led : list entry),
    Forall (fun m => builder m = true) ms ->
    _children w = led.*2 ->
    run ms w = Ok tt w' ->
    exists led', ledger stamp ms led = Some led' /\ _children w' = led'.*2.
Proof.
  induction ms as [|m ms IH]; intros stamp w w' led Hb Hc Hrun.
  - injection Hrun as <-. now exists led.
  - inversion Hb as [|? ? Hm Hms]; subst.
    pose proof (invoke_ledger_step stamp m w led Hm Hc) as Hstep.
    cbn [run ledger] in *. unfold mbind, outcome_bind, bind in Hrun.
    destruct (invoke m w) as [[] w1 | e w1 |]; try discriminate Hrun.
    destruct (ledger_step stamp m led) as [led1|]; [| contradiction].
    now apply (IH (S stamp) w1 w' led1).
Qed.

(** A series of appends always runs to the end. *)
Lemma run_appends_total (ms : list method) (w : widget) :
  Forall (fun m => exists child, m = call_push_back child) ms ->
  exists w', run ms w = Ok tt w'.
Proof.
  revert w. induction ms as [|m ms IH]; intros w Hall.
  - now exists w.
  - inversion Hall as [|? ? [child ->] Hms]; subst.
    cbn [run]. unfold mbind, outcome_bind, bind. cbn. now apply IH.
Qed.

(** *** What one call does to the ledger *)

Lemma take_drop_sublist {A} (a b : nat) (l : list A) :
  a <= b -> take a l ++ drop b l `sublist_of` l.
Proof.
  intros Hab. rewrite <- (take_drop a l) at 3.
  apply sublist_app; [reflexivity |].
  replace b with (a + (b - a)) by lia. rewrite <- drop_drop.
  apply sublist_drop.
Qed.

Lemma ledger_step_shape (stamp : nat) (m : method) (led led' : list entry) :
  ledger_step stamp m led = Some led' ->
  match adds m with
  | Some child =>
      led' ≡ₚ (stamp, child) :: led
      /\ (positional m = false -> led' = led ++ [(stamp, child)])
  | None =>
      led' `sublist_of` led /\ length led' + erased m = length led
  end.
Proof.
  destruct m; cbn [ledger_step adds erased positional];
    try (intros [= <-]; split; [reflexivity | lia]).
  - case_decide; [| discriminate]. intros [= <-]. split; [| discriminate].
    rewrite <- Permutation_middle. now rewrite take_drop.
  - case_decide; [| discriminate]. intros [= <-]. split.
    + apply take_drop_sublist. lia.
    + rewrite length_app, length_take, length_drop. lia.
  - case_decide; [| discriminate]. intros [= <-]. split.
    + apply take_drop_sublist. lia.
    + rewrite length_app, length_take, length_drop. lia.
  - intros [= <-]. split; [| reflexivity].
    now rewrite <- Permutation_cons_append.
  - intros [= <-]. split; [| reflexivity].
    now rewrite <- Permutation_cons_append.
Qed.

Lemma ledger_count (ms : list method) :
  forall (stamp : nat) (led led' : list entry),
    ledger stamp ms led = Some led' ->
    length led' + total erased ms = length led + total added ms.
Proof.
  induction ms as [|m ms IH]; intros stamp led led' Hled; cbn [ledger] in Hled.
  - injection Hled as <-. reflexivity.
  - destruct (ledger_step stamp m led) as [led1|] eqn:Hstep; [| discriminate].
    apply IH in Hled. apply ledger_step_shape in Hstep.
    change (total erased (m :: ms)) with (erased m + total erased ms).
    change (total added (m :: ms)) with (added m + total added ms).
    unfold added at 1. destruct (adds m) as [child|] eqn:Hadds.
    + destruct Hstep as [Hperm _]. apply Permutation_length in Hperm.
      cbn in Hperm. destruct m; try discriminate Hadds; cbn [erased] in *; lia.
    + lia.
Qed.

Lemma older_weaken (stamp stamp' : nat) (led : list entry) :
  stamp <= stamp' -> older stamp led -> older stamp' led.
Proof.
  intros Hle Hold. unfold older in *.
  eapply Forall_impl; [exact Hold |]. intros e He. cbn in *. lia.
Qed.

Lemma StronglySorted_sublist {A} (R : A -> A -> Prop) (l1 l2 : list A) :
  l1 `sublist_of` l2 -> StronglySorted R l2 -> StronglySorted R l1.
Proof.
  induction 1 as [| x l1 l2 Hsub IH | x l1 l2 Hsub IH]; intros Hsorted.
  - constructor.
  - apply StronglySorted_cons in Hsorted as [Hx Hrest].
    apply StronglySorted_cons. split; [| now apply IH].
    rewrite Forall_forall in Hx |- *. intros y Hy.
    apply Hx. now apply (elem_of_sublist l1 l2).
  - apply StronglySorted_cons in Hsorted as [_ Hrest]. now apply IH.
Qed.

(** The invariant of the ledger, one call on. *)
Lemma ledger_step_invariant (series : list method) (stamp : nat) (m : method)
    (led led' : list entry) :
  series !! stamp = Some m ->
  ledger_step stamp m led = Some led' ->
  older stamp led -> NoDup led.*1 -> accounted series led ->
  older (S stamp) led' /\ NoDup led'.*1 /\ accounted series led'.
Proof.
  intros Hm Hstep Holder Hnodup Hacc.
  apply ledger_step_shape in Hstep. unfold older, accounted in *.
  destruct (adds m) as [child|] eqn:Hadds.
  - destruct Hstep as [Hperm _]. rewrite Hperm. cbn [fmap list_fmap fst].
    split; [| split].
    + constructor; [cbn; lia |]. apply (older_weaken stamp); [lia | assumption].
    + change ((stamp, child) :: led).*1 with (stamp :: led.*1).
      constructor; [| assumption].
      intros Hin. apply list_elem_of_fmap in Hin as (e & He & Hin).
      rewrite Forall_forall in Holder. specialize (Holder e Hin). lia.
    + constructor; [| assumption]. now exists m.
  - destruct Hstep as [Hsub _]. split; [| split].
    + apply (older_weaken stamp); [lia |]. unfold older.
      rewrite Forall_forall in Holder |- *. intros e He.
      apply Holder. now apply (elem_of_sublist led' led).
    + apply (sublist_NoDup led'.*1 led.*1); [exact Hnodup | now apply fmap_sublist].
    + rewrite Forall_forall in Hacc |- *. intros e He.
      apply Hacc. now apply (elem_of_sublist led' led).
Qed.

Lemma ledger_invariant (ms : list method) :
  forall (pre : list method) (led led' : list entry),
    ledger (length pre) ms led = Some led' ->
    older (length pre) led -> NoDup led.*1 -> accounted (pre ++ ms) led ->
    older (length (pre ++ ms)) led' /\ NoDup led'.*1 /\ accounted (pre ++ ms) led'.
Proof.
  induction ms as [|m ms IH]; intros pre led led' Hled Holder Hnodup Hacc.
  - injection Hled as <-. now rewrite app_nil_r in *.
  - cbn [ledger] in Hled.
    destruct (ledger_step (length pre) m led) as [led1|] eqn:Hstep; [| discriminate].
    destruct (ledger_step_invariant (pre ++ m :: ms) (length pre) m led led1)
      as (Holder1 & Hnodup1 & Hacc1); try assumption.
    { now apply list_lookup_middle. }
    replace (pre ++ m :: ms) with ((pre ++ [m]) ++ ms) in *
      by now rewrite <- app_assoc.
    replace (S (length pre)) with (length (pre ++ [m])) in *
      by (rewrite length_app; cbn; lia).
    now apply (IH (pre ++ [m]) led1 led').
Qed.

(** Without inserts at a position the entries stay in the order of the
    calls. *)
Lemma ledger_in_order (ms : list method) :
  forall (stamp : nat) (led led' : list entry),
    ledger stamp ms led = Some led' ->
    Forall (fun m => positional m = false) ms ->
    older stamp led -> in_order led ->
    in_order led'.
Proof.
  induction ms as [|m ms IH]; intros stamp led led' Hled Hpos Holder Hord.
  - now injection Hled as <-.
  - cbn [ledger] in Hled. inversion Hpos as [|? ? Hm Hms]; subst.
    destruct (ledger_step stamp m led) as [led1|] eqn:Hstep; [| discriminate].
    apply ledger_step_shape in Hstep.
    apply (IH (S stamp) led1 led' Hled Hms).
    + unfold older in *. destruct (adds m) as [child|].
      * destruct Hstep as [Hperm _]. rewrite Hperm.
        constructor; [cbn; lia |]. apply (older_weaken stamp); [lia | assumption].
      * destruct Hstep as [Hsub _]. apply (older_weaken stamp); [lia |].
        unfold older. rewrite Forall_forall in Holder |- *. intros e He.
        apply Holder. now apply (elem_of_sublist led1 led).
    + unfold in_order in *. destruct (adds m) as [child|].
      * destruct Hstep as [_ Heq]. rewrite (Heq Hm).
        apply StronglySorted_app_2; [| assumption | repeat constructor].
        intros e1 e2 He1 He2. apply list_elem_of_singleton in He2 as ->.
        unfold older in Holder. rewrite Forall_forall in Holder.
        now apply Holder.
      * destruct Hstep as [Hsub _]. now apply (StronglySorted_sublist _ led1 led).
Qed.

(** In an ordered ledger the first entry is the earliest insertion and the
    last entry the latest. *)
Lemma in_order_extremes (led : list entry) (e : entry) :
  in_order led ->
  (head led = Some e -> Forall (fun e' : entry => e.1 <= e'.1) led)
  /\ (last led = Some e -> Forall (fun e' : entry => e'.1 <= e.1) led).
Proof.
  unfold in_order. intros Hord. split.
  - destruct led as [|e0 led]; [discriminate |]. intros [= ->].
    apply StronglySorted_cons in Hord as [Hall _].
    constructor; [lia |]. eapply Forall_impl; [exact Hall |].
    intros e' He'. cbn in He'. lia.
  - intros Hlast. apply last_Some in Hlast as [front ->].
    apply Forall_app. split; [| repeat constructor].
    rewrite Forall_forall. intros e' He'.
    assert (e'.1 < e.1); [| lia].
    apply (StronglySorted_app_1_elem_of _ front [e] e' e Hord He').
    now apply list_elem_of_singleton.
Qed.

(** *** A series with its positions in range runs to its end *)

Lemma placed_insert {A} (pos : nat) (x : A) (v : list A) :
  pos <= length v ->
  (take pos v ++ x :: drop pos v) !! pos = Some x
  /\ v `sublist_of` take pos v ++ x :: drop pos v
  /\ length (take pos v ++ x :: drop pos v) = S (length v).
Proof.
  intros Hpos.
  assert (Hlen : length (take pos v) = pos) by (rewrite length_take; lia).
  split; [| split].
  - now apply list_lookup_middle.
  - rewrite <- (take_drop pos v) at 1.
    apply sublist_app; [reflexivity |]. now apply sublist_cons.
  - rewrite length_app. cbn. rewrite Hlen, length_drop. lia.
Qed.

Lemma placed_erase_range {A} (first last : nat) (v : list A) :
  first <= last -> last <= length v ->
  take first v ++ drop last v `sublist_of` v
  /\ length (take first v ++ drop last v) + (last - first) = length v
  /\ (forall i, i < first -> (take first v ++ drop last v) !! i = v !! i)
  /\ (forall i, first <= i ->
        (take first v ++ drop last v) !! i = v !! (i + (last - first))).
Proof.
  intros Hfl Hlast.
  assert (Hlen : length (take first v) = first) by (rewrite length_take; lia).
  split; [now apply take_drop_sublist |]. split; [| split].
  - rewrite length_app, Hlen, length_drop. lia.
  - intros i Hi. rewrite lookup_app_l by lia. now apply lookup_take_lt.
  - intros i Hi. rewrite lookup_app_r by lia. rewrite Hlen, lookup_drop.
    f_equal. lia.
Qed.

(** One call of a builder: it runs exactly when its positions are in
    range, never raises, and places or removes children as [placed]
    says. *)
Lemma invoke_builder (m : method) (w : widget) :
  builder m = true ->
  match invoke m w with
  | Ok _ w' =>
      in_range (length (_children w)) m = true
      /\ placed m (_children w) (_children w')
      /\ length (_children w') = length (_children w) + added m - erased m
      /\ match adds m with
         | Some child =>
             _children w' ≡ₚ child :: _children w
             /\ (positional m = false -> _children w' = _children w ++ [child])
         | None => _children w' `sublist_of` _children w
         end
  | Raise _ _ => False
  | UB => in_range (length (_children w)) m = false
  end.
Proof.
  intros Hb. destruct w as [d b cs].
  destruct m as [pos | pos | | | | | | | pos child | pos | first lst | child | fresh];
    try discriminate Hb; cbn [invoke in_range placed adds positional];
    unfold insert, erase, erase_range, push_back, emplace_back_body,
           mbind, outcome_bind, bind, on_children, mret, outcome_ret, ret,
           StdVector.insert, StdVector.erase, StdVector.erase_range,
           StdVector.push_back, StdVector.emplace_back, StdVector.back;
    cbn [_children _dirty _bounds].
  - destruct (decide (pos <= length cs)) as [Hpos | Hn];
      cbn [_children _dirty _bounds].
    + destruct (placed_insert pos child cs Hpos) as (Hat & Hsub & Hlen).
      split; [now apply Nat.leb_le |]. split; [now repeat split |].
      split; [rewrite Hlen; cbn; lia |]. split; [| discriminate].
      rewrite <- Permutation_middle. now rewrite take_drop.
    + apply Nat.leb_gt. lia.
  - destruct (decide (pos < length cs)) as [Hpos | Hn];
      cbn [_children _dirty _bounds].
    + destruct (placed_erase_range pos (S pos) cs) as (Hsub & Hlen & Hlow & Hhigh);
        [lia | lia |].
      split; [now apply Nat.ltb_lt |]. split; [| split; [cbn; lia | exact Hsub]].
      split; [exact Hsub |]. split; [lia |]. split; [exact Hlow |].
      intros i Hi. rewrite (Hhigh i Hi). f_equal. lia.
    + apply Nat.ltb_ge. lia.
  - destruct (decide (first <= lst /\ lst <= length cs)) as [[Hfl Hlast] | Hn];
      cbn [_children _dirty _bounds].
    + destruct (placed_erase_range first lst cs Hfl Hlast)
        as (Hsub & Hlen & Hlow & Hhigh).
      split; [apply andb_true_intro; split; now apply Nat.leb_le |].
      split; [now repeat split |]. split; [cbn; lia | exact Hsub].
    + apply andb_false_iff.
      destruct (Nat.leb_spec first lst); [right | left; reflexivity].
      apply Nat.leb_gt. lia.
  - split; [reflexivity |]. split; [reflexivity |].
    split; [rewrite length_app; cbn; lia |].
    split; [now rewrite <- Permutation_cons_append | reflexivity].
  - rewrite last_snoc. cbn [_children _dirty _bounds].
    split; [reflexivity |]. split; [reflexivity |].
    split; [rewrite length_app; unfold widget_pointer; cbn; lia |].
    split; [now rewrite <- Permutation_cons_append | reflexivity].
Qed.

Lemma valid_builders (ms : list method) :
  forall n, valid n ms = true -> Forall (fun m => builder m = true) ms.
Proof.
  induction ms as [|m ms IH]; intros n Hvalid; [constructor |].
  cbn in Hvalid. apply andb_prop in Hvalid as [Hhead Hrest].
  apply andb_prop in Hhead as [Hb _]. constructor; [exact Hb | eauto].
Qed.

(** Every series whose positions are in range runs to its end. *)
Lemma run_valid (ms : list method) :
  forall w0 : widget,
    valid (length (_children w0)) ms = true ->
    exists w, run ms w0 = Ok tt w.
Proof.
  induction ms as [|m ms IH]; intros w0 Hvalid; [now exists w0 |].
  cbn [valid] in Hvalid. apply andb_prop in Hvalid as [Hhead Hrest].
  apply andb_prop in Hhead as [Hb Hrange].
  pose proof (invoke_builder m w0 Hb) as Hstep.
  cbn [run]. unfold mbind, outcome_bind, bind.
  destruct (invoke m w0) as [[] w1 | e w1 |]; [| contradiction | congruence].
  destruct Hstep as (_ & _ & Hlen & _). apply IH. now rewrite Hlen.
Qed.

(** And only those: a series of builders that runs to its end had its
    positions in range. *)
Lemma run_only_valid (ms : list method) :
  forall w0 w : widget,
    Forall (fun m => builder m = true) ms ->
    run ms w0 = Ok tt w ->
    valid (length (_children w0)) ms = true.
Proof.
  induction ms as [|m ms IH]; intros w0 w Hb Hrun; [reflexivity |].
  inversion Hb as [|? ? Hm Hms]; subst.
  pose proof (invoke_builder m w0 Hm) as Hstep.
  cbn [run valid] in *. unfold mbind, outcome_bind, bind in Hrun.
  destruct (invoke m w0) as [[] w1 | e w1 |]; try discriminate Hrun.
  destruct Hstep as (Hrange & _ & Hlen & _).
  rewrite Hm, Hrange, <- Hlen. cbn. now apply (IH w1 w).
Qed.

Lemma run_split (pre : list method) :
  forall (post : list method) (w0 w : widget),
    run (pre ++ post) w0 = Ok tt w ->
    exists w1, run pre w0 = Ok tt w1 /\ run post w1 = Ok tt w.
Proof.
  induction pre as [|m pre IH]; intros post w0 w Hrun; [now exists w0 |].
  cbn [app run] in *. unfold mbind, outcome_bind, bind in *.
  destruct (invoke m w0) as [[] w1 | e w1 |]; try discriminate Hrun.
  now apply IH.
Qed.

(** The children of the widget are inserted children, none more often
    than it was inserted; without inserts at a position they are in the
    order of their insertion. *)
Lemma run_inserted (ms : list method) :
  forall w0 w : widget,
    Forall (fun m => builder m = true) ms ->
    run ms w0 = Ok tt w ->
    _children w ⊆+ _children w0 ++ inserted ms
    /\ (Forall (fun m => positional m = false) ms ->
        _children w `sublist_of` _children w0 ++ inserted ms).
Proof.
  induction ms as [|m ms IH]; intros w0 w Hb Hrun.
  - injection Hrun as <-. unfold inserted. cbn. rewrite app_nil_r.
    split; [reflexivity | intros _; reflexivity].
  - inversion Hb as [|? ? Hm Hms]; subst.
    pose proof (invoke_builder m w0 Hm) as Hstep.
    cbn [run] in Hrun. unfold mbind, outcome_bind, bind in Hrun.
    destruct (invoke m w0) as [[] w1 | e w1 |]; try discriminate Hrun.
    destruct Hstep as (_ & _ & _ & Hgrown).
    destruct (IH w1 w Hms Hrun) as [Hmset Hsub].
    unfold inserted in *. cbn [omap list_omap].
    destruct (adds m) as [child|].
    + destruct Hgrown as [Hperm Happend]. split.
      * rewrite Hmset, Hperm. cbn. now rewrite Permutation_middle.
      * intros Hpos. inversion Hpos as [|? ? Hpm Hpms]; subst.
        rewrite (Hsub Hpms), (Happend Hpm). now rewrite <- app_assoc.
    + split.
      * rewrite Hmset. apply submseteq_app; [| reflexivity].
        now apply sublist_submseteq.
      * intros Hpos. inversion Hpos as [|? ? Hpm Hpms]; subst.
        rewrite (Hsub Hpms). apply sublist_app; [exact Hgrown | reflexivity].
Qed.

(** C3 (counterexample): push_back(1) then insert(begin(), 2) runs; both
    children survive, 1 was inserted first, and front() returns 2, the
    child inserted last, while back() returns 1. *)
Lemma front_is_not_first_inserted :
  exists w,
    run [call_push_back (Some 1%positive); call_insert 0 (Some 2%positive)]
      widget_default = Ok tt w
    /\ iteration w = [Some 2%positive; Some 1%positive]
    /\ inserted [call_push_back (Some 1%positive); call_insert 0 (Some 2%positive)]
       = [Some 1%positive; Some 2%positive]
    /\ front w = Ok (Some 2%positive) w
    /\ back w = Ok (Some 1%positive) w.
Proof. eexists. repeat split. Qed.

(** C3 (amended): for a widget built from no children by a series of
    appends (push_back, the body of emplace_back), inserts at a position
    and erases in which every position is in range: the series runs to its
    end; size() is the number of appends and inserts minus the number of
    erased children; iteration visits inserted children only, none more
    often than it was inserted; every call of the series places or removes
    children as its positions say and keeps the others in their order; and
    when the series holds no insert at a position, iteration follows the
    order of insertion, so that front() and back() return the earliest and
    the latest surviving insertion. *)
Theorem children_follow_insertions (ms : list method) (w0 : widget) :
  _children w0 = [] ->
  valid 0 ms = true ->
  exists w,
    run ms w0 = Ok tt w
    /\ total erased ms <= total added ms
    /\ size w = Ok (total added ms - total erased ms) w
    /\ iteration w ⊆+ inserted ms
    /\ (forall pre m post,
          ms = pre ++ m :: post ->
          exists w1 w2,
            run pre w0 = Ok tt w1 /\ invoke m w1 = Ok tt w2
            /\ run post w2 = Ok tt w
            /\ placed m (iteration w1) (iteration w2))
    /\ (exists led : list entry,
          ledger 0 ms [] = Some led
          /\ iteration w = led.*2
          /\ NoDup led.*1
          /\ accounted ms led
          /\ front w = match head led with Some e => Ok e.2 w | None => UB end
          /\ back w = match last led with Some e => Ok e.2 w | None => UB end
          /\ (Forall (fun m => positional m = false) ms ->
              iteration w `sublist_of` inserted ms
              /\ in_order led
              /\ (forall e, head led = Some e ->
                    Forall (fun e' : entry => e.1 <= e'.1) led)
              /\ (forall e, last led = Some e ->
                    Forall (fun e' : entry => e'.1 <= e.1) led))).
Proof.
  intros Hempty Hvalid.
  pose proof (valid_builders ms 0 Hvalid) as Hbuilders.
  destruct (run_valid ms w0) as [w Hrun]; [now rewrite Hempty |].
  exists w. split; [exact Hrun |].
  destruct (run_ledger ms 0 w0 w [] Hbuilders Hempty Hrun) as (led & Hled & Hc).
  pose proof (ledger_count ms 0 [] led Hled) as Hcount. cbn [length] in Hcount.
  destruct (ledger_invariant ms [] [] led Hled) as (_ & Hnodup & Hacc);
    [constructor | constructor | constructor |].
  destruct (run_inserted ms w0 w Hbuilders Hrun) as [Hmset Hsub].
  rewrite Hempty in Hmset, Hsub. cbn [app] in Hmset, Hsub.
  assert (Hsize : length (_children w) = total added ms - total erased ms
                  /\ total erased ms <= total added ms).
  { rewrite Hc, length_fmap. unfold entry, widget_pointer in *. lia. }
  split; [apply Hsize |]. split.
  { unfold size, on_children, StdVector.size. destruct w as [d b cs].
    cbn [_children _dirty _bounds] in *. now rewrite (proj1 Hsize). }
  split; [exact Hmset |]. split.
  { intros pre m post ->.
    destruct (run_split pre (m :: post) w0 w Hrun) as (w1 & Hpre & Hrest).
    exists w1. cbn [run] in Hrest. unfold mbind, outcome_bind, bind in Hrest.
    assert (Hm : builder m = true).
    { apply Forall_app in Hbuilders as [_ Hb]. now inversion Hb. }
    pose proof (invoke_builder m w1 Hm) as Hstep.
    destruct (invoke m w1) as [[] w2 | e w2 |]; try discriminate Hrest.
    exists w2. repeat split; try assumption. apply Hstep. }
  exists led. split; [exact Hled |]. split; [exact Hc |].
  split; [exact Hnodup |]. split; [exact Hacc |].
  unfold iteration, front, back, on_children, StdVector.front, StdVector.back in *.
  destruct w as [d b cs]. cbn [_children _dirty _bounds] in *. subst cs.
  rewrite fmap_last. unfold entry, widget_pointer in *.
  split; [destruct led; reflexivity |].
  split; [destruct (last led); reflexivity |].
  intros Hpos.
  pose proof (ledger_in_order ms 0 [] led Hled Hpos
                ltac:(constructor) ltac:(constructor)) as Hord.
  split; [now apply Hsub |]. split; [exact Hord |].
  split; intros e He; now apply (in_order_extremes led e Hord).
Qed.

Lemma children_follow_insertions_witness :
  exists w,
    run example_series widget_default = Ok tt w
    /\ total erased example_series <= total added example_series
    /\ size w = Ok (total added example_series - total erased example_series) w
    /\ iteration w ⊆+ inserted example_series
    /\ (forall pre m post,
          example_series = pre ++ m :: post ->
          exists w1 w2,
            run pre widget_default = Ok tt w1 /\ invoke m w1 = Ok tt w2
            /\ run post w2 = Ok tt w
            /\ placed m (iteration w1) (iteration w2))
    /\ (exists led : list entry,
          ledger 0 example_series [] = Some led
          /\ iteration w = led.*2
          /\ NoDup led.*1
          /\ accounted example_series led
          /\ front w = match head led with Some e => Ok e.2 w | None => UB end
          /\ back w = match last led with Some e => Ok e.2 w | None => UB end
          /\ (Forall (fun m => positional m = false) example_series ->
              iteration w `sublist_of` inserted example_series
              /\ in_order led
              /\ (forall e, head led = Some e ->
                    Forall (fun e' : entry => e.1 <= e'.1) led)
              /\ (forall e, last led = Some e ->
                    Forall (fun e' : entry => e'.1 <= e.1) led))).
Proof.
  apply (children_follow_insertions example_series widget_default).
  - reflexivity.
  - reflexivity.
Defined.

(** The example series leaves the children 2 and 7, two of the five
    inserted. *)
Lemma example_series_runs :
  valid 0 example_series = true
  /\ run example_series widget_default
     = Ok tt (mk_widget true (tvec_default 2) [Some 2%positive; Some 7%positive]).
Proof. split; reflexivity. Qed.

End InsertionOrder.

(** * Further properties of the vector *)

Section VectorElements.
Import Vec.

Lemma pairwise_lookup {T} (op : T -> T -> option T) (l r w : list T) :
  pairwise op l r = Some w ->
  forall i x y, l !! i = Some x -> r !! i = Some y ->
    is_Some (w !! i) /\ op x y = w !! i.
Proof.
  revert r w. induction l as [|a l IH]; intros [|b r] w Hw i x y Hx Hy;
    try discriminate Hx; try discriminate Hy.
  cbn in Hw. destruct (op a b) as [c|] eqn:Hc; [| discriminate Hw].
  destruct (pairwise op l r) as [w'|] eqn:Hw'; [| discriminate Hw].
  injection Hw as <-. destruct i as [|i]; cbn in *.
  - injection Hx as <-. injection Hy as <-. split; [eexists; reflexivity | exact Hc].
  - now apply (IH r w' Hw' i x y).
Qed.

Lemma pairwise_None {T} (op : T -> T -> option T) (l r : list T) :
  length l = length r ->
  pairwise op l r = None ->
  exists i x y, l !! i = Some x /\ r !! i = Some y /\ op x y = None.
Proof.
  revert r. induction l as [|a l IH]; intros [|b r] Hlen Hnone;
    try discriminate Hlen; try discriminate Hnone.
  cbn in Hnone. destruct (op a b) as [c|] eqn:Hc.
  - destruct (pairwise op l r) as [w'|] eqn:Hw'; [discriminate Hnone |].
    destruct (IH r) as (i & x & y & Hx & Hy & Hop); [now injection Hlen | exact Hw' |].
    now exists (S i), x, y.
  - now exists 0, a, b.
Qed.

(** X1: for operands of dimension N the vector form of a compound
    assignment never leaves the arrays: it is undefined only where the
    operator is undefined on a pair of elements at the same index, and
    otherwise the element at every index is the operator applied to the two
    elements at that index, in a vector of dimension N. *)
Theorem compound_vec_elementwise {T} (N : nat) (op : T -> T -> option T)
    (rhs this : tvec T N) :
  tvec_wf this -> tvec_wf rhs ->
  match compound_vec N op rhs this with
  | Some result =>
      tvec_wf result
      /\ forall i x y,
           _elements this !! i = Some x -> _elements rhs !! i = Some y ->
           is_Some (_elements result !! i) /\ op x y = _elements result !! i
  | None =>
      exists i x y,
        _elements this !! i = Some x /\ _elements rhs !! i = Some y
        /\ op x y = None
  end.
Proof.
  intros Hthis Hrhs. rewrite compound_vec_pairwise by assumption.
  destruct (pairwise op (_elements this) (_elements rhs)) as [w|] eqn:Hw; cbn.
  - split.
    + unfold tvec_wf in *. cbn. now rewrite (pairwise_length _ _ _ _ Hw).
    + now apply pairwise_lookup.
  - apply pairwise_None; [unfold tvec_wf in *; congruence | exact Hw].
Qed.

Lemma compound_vec_elementwise_witness :
  match @compound_vec Z 2 uint_div (mk_tvec [2; 0]%Z) (mk_tvec [7; 9]%Z) with
  | Some result =>
      tvec_wf result
      /\ forall i x y,
           [7; 9]%Z !! i = Some x -> [2; 0]%Z !! i = Some y ->
           is_Some (_elements result !! i) /\ uint_div x y = _elements result !! i
  | None =>
      exists i x y,
        [7; 9]%Z !! i = Some x /\ [2; 0]%Z !! i = Some y /\ uint_div x y = None
  end.
Proof.
  exact (compound_vec_elementwise 2 uint_div (mk_tvec [2; 0]%Z) (mk_tvec [7; 9]%Z)
           eq_refl eq_refl).
Defined.






(** t{2, 3}; t *= t[0] leaves (4, 12), t *= tvec(t[0]) leaves (4, 6). *)
Lemma times_own_element :
  @operator_times_assign_scalar Z signed_int 2 (element_of_this 0) (mk_tvec [2; 3]%Z)
  = Some (mk_tvec [4; 12]%Z)
  /\ @operator_times_assign Z signed_int 2 (@tvec_broadcast Z 2 2%Z) (mk_tvec [2; 3]%Z)
     = Some (mk_tvec [4; 6]%Z).
Proof. split; reflexivity. Qed.

(** X3: the dimension is an invariant: a vector that a constructor builds
    holds N elements, and so does the result of each compound assignment,
    in its vector and in its scalar form, on operands that do, whatever
    the scalar operand refers to. *)
Theorem dimension_invariant {T} {ST : Scalar T} (N : nat)
    (op : T -> T -> option T) (args : list T) (s : operand T)
    (rhs this : tvec T N) :
  tvec_wf this -> tvec_wf rhs ->
  match construct N args with WellFormed v => tvec_wf v | IllFormed => True end
  /\ match compound_vec N op rhs this with Some r => tvec_wf r | None => True end
  /\ match compound_scalar N op s this with Some r => tvec_wf r | None => True end.
Proof.
  intros Hthis Hrhs. repeat split.
  - destruct (construct N args) as [v|] eqn:Hv; [| exact I].
    now apply (construct_wf N args).
  - destruct (compound_vec N op rhs this) as [r|] eqn:Hr; [| exact I].
    now apply (compound_vec_wf N op rhs this).
  - destruct (compound_scalar N op s this) as [r|] eqn:Hr; [| exact I].
    now apply (compound_scalar_wf N op s this).
Qed.

Lemma dimension_invariant_witness :
  match @construct Z unsigned_int 2 [1; 2]%Z with
  | WellFormed v => tvec_wf v
  | IllFormed => True
  end
  /\ match @compound_vec Z 2 s_add (mk_tvec [1; 2]%Z) (mk_tvec [3; 4]%Z) with
     | Some r => tvec_wf r
     | None => True
     end
  /\ match @compound_scalar Z 2 s_add (element_of_this 1) (mk_tvec [3; 4]%Z) with
     | Some r => tvec_wf r
     | None => True
     end.
Proof.
  exact (@dimension_invariant Z unsigned_int 2 s_add [1; 2]%Z (element_of_this 1)
           (mk_tvec [1; 2]%Z) (mk_tvec [3; 4]%Z) eq_refl eq_refl).
Defined.

End VectorElements.

Section VectorLaws.
Import Vec.

Lemma pairwise_comm {T} (op : T -> T -> option T) (l r : list T) :
  (forall x y, op x y = op y x) ->
  length l = length r ->
  pairwise op l r = pairwise op r l.
Proof.
  intros Hop. revert r. induction l as [|a l IH]; intros [|b r] Hlen;
    try discriminate Hlen; [reflexivity |].
  cbn. rewrite (Hop a b), (IH r) by now injection Hlen. reflexivity.
Qed.

Lemma compound_vec_comm {T} (N : nat) (op : T -> T -> option T) (u v : tvec T N) :
  (forall x y, op x y = op y x) ->
  tvec_wf u -> tvec_wf v ->
  compound_vec N op v u = compound_vec N op u v.
Proof.
  intros Hop Hu Hv. rewrite !compound_vec_pairwise by assumption.
  rewrite (pairwise_comm op _ _ Hop); [reflexivity |].
  unfold tvec_wf in *. congruence.
Qed.

(** X4: over unsigned int and over int, u + v and v + u, and u * v and
    v * u, are the same vector, or are both undefined. *)
Theorem integer_plus_times_commute (N : nat) (u v : tvec Z N) :
  tvec_wf u -> tvec_wf v ->
  @operator_plus Z unsigned_int N u v = @operator_plus Z unsigned_int N v u
  /\ @operator_times Z unsigned_int N u v = @operator_times Z unsigned_int N v u
  /\ @operator_plus Z signed_int N u v = @operator_plus Z signed_int N v u
  /\ @operator_times Z signed_int N u v = @operator_times Z signed_int N v u.
Proof.
  intros Hu Hv.
  repeat split; apply compound_vec_comm; try assumption; intros x y; cbn;
    now rewrite ?(Z.add_comm x y), ?(Z.mul_comm x y).
Qed.

Lemma integer_plus_times_commute_witness :
  @operator_plus Z unsigned_int 2 (mk_tvec [4294967295; 2]%Z) (mk_tvec [3; 4]%Z)
  = @operator_plus Z unsigned_int 2 (mk_tvec [3; 4]%Z) (mk_tvec [4294967295; 2]%Z)
  /\ @operator_times Z unsigned_int 2 (mk_tvec [4294967295; 2]%Z) (mk_tvec [3; 4]%Z)
     = @operator_times Z unsigned_int 2 (mk_tvec [3; 4]%Z) (mk_tvec [4294967295; 2]%Z)
  /\ @operator_plus Z signed_int 2 (mk_tvec [4294967295; 2]%Z) (mk_tvec [3; 4]%Z)
     = @operator_plus Z signed_int 2 (mk_tvec [3; 4]%Z) (mk_tvec [4294967295; 2]%Z)
  /\ @operator_times Z signed_int 2 (mk_tvec [4294967295; 2]%Z) (mk_tvec [3; 4]%Z)
     = @operator_times Z signed_int 2 (mk_tvec [3; 4]%Z) (mk_tvec [4294967295; 2]%Z).
Proof.
  exact (integer_plus_times_commute 2 (mk_tvec [4294967295; 2]%Z) (mk_tvec [3; 4]%Z)
           eq_refl eq_refl).
Defined.

Lemma range_for_total {T} (body : T -> option T) (l : list T) :
  (forall x, is_Some (body x)) -> is_Some (range_for body l).
Proof.
  intros Hbody. apply range_for_defined. apply Forall_forall. auto.
Qed.

Lemma pairwise_uint_div_None (l r : list Z) :
  length l = length r ->
  pairwise uint_div l r = None <-> 0%Z ∈ r.
Proof.
  revert r. induction l as [|a l IH]; intros [|b r] Hlen;
    try discriminate Hlen.
  - cbn. split; [discriminate | intros H; inversion H].
  - cbn. unfold uint_div at 1. destruct (Z.eqb_spec b 0) as [-> | Hb].
    + split; [intros _; left | reflexivity].
    + specialize (IH r ltac:(now injection Hlen)).
      destruct (pairwise uint_div l r) as [w|]; cbn.
      * split; [discriminate |]. intros Hin.
        apply elem_of_cons in Hin as [Heq | Hin]; [congruence |].
        now apply IH in Hin.
      * split; [| reflexivity]. intros _. right. now apply IH.
Qed.

(** X5: division by zero.  Over unsigned int and over int, dividing a
    vector by the scalar zero is undefined as soon as the vector has an
    element, and leaves a vector of dimension zero as it is; dividing by a
    vector is undefined over unsigned int exactly when the divisor has a
    zero element.  Over float, division by the scalar zero is defined for
    every vector. *)
Theorem divide_by_zero (N : nat) (u v : tvec Z N) (w : tvec float N) :
  tvec_wf u -> tvec_wf v ->
  (N <> 0 ->
     @operator_divide_scalar Z unsigned_int N u 0%Z = None
     /\ @operator_divide_scalar Z signed_int N u 0%Z = None)
  /\ (N = 0 ->
      @operator_divide_scalar Z unsigned_int N u 0%Z = Some u
      /\ @operator_divide_scalar Z signed_int N u 0%Z = Some u)
  /\ (@operator_divide Z unsigned_int N u v = None <-> 0%Z ∈ _elements v)
  /\ is_Some (@operator_divide_scalar float float_scalar N w f_zero).
Proof.
  intros Hu Hv. unfold tvec_wf in *. destruct u as [l]. cbn [_elements] in *.
  split; [| split; [| split]].
  - intros HN. destruct l as [|a l]; [cbn in Hu; congruence |].
    split; reflexivity.
  - intros HN. destruct l as [|a l]; [| cbn in Hu; congruence].
    split; reflexivity.
  - unfold operator_divide, operator_divide_assign.
    rewrite compound_vec_pairwise by assumption. cbn [_elements s_div unsigned_int].
    rewrite <- (pairwise_uint_div_None l (_elements v)) by congruence.
    destruct (pairwise uint_div l (_elements v)); cbn; split; congruence.
  - unfold operator_divide_scalar, operator_divide_assign_scalar.
    rewrite compound_scalar_outside.
    destruct (range_for_total (fun e => s_div e f_zero) (_elements w)) as [r Hr].
    + intros x. eexists. reflexivity.
    + rewrite Hr. eexists. reflexivity.
Qed.

Lemma divide_by_zero_witness :
  (2 <> 0 ->
     @operator_divide_scalar Z unsigned_int 2 (mk_tvec [6; 8]%Z) 0%Z = None
     /\ @operator_divide_scalar Z signed_int 2 (mk_tvec [6; 8]%Z) 0%Z = None)
  /\ (2 = 0 ->
      @operator_divide_scalar Z unsigned_int 2 (mk_tvec [6; 8]%Z) 0%Z
      = Some (mk_tvec [6; 8]%Z)
      /\ @operator_divide_scalar Z signed_int 2 (mk_tvec [6; 8]%Z) 0%Z
         = Some (mk_tvec [6; 8]%Z))
  /\ (@operator_divide Z unsigned_int 2 (mk_tvec [6; 8]%Z) (mk_tvec [3; 0]%Z) = None
      <-> 0%Z ∈ [3; 0]%Z)
  /\ is_Some (@operator_divide_scalar float float_scalar 2
                (mk_tvec [f_one; f_neg_half]) f_zero).
Proof.
  exact (divide_by_zero 2 (mk_tvec [6; 8]%Z) (mk_tvec [3; 0]%Z)
           (mk_tvec [f_one; f_neg_half]) eq_refl eq_refl).
Defined.

(** X6: what the constructors build.  With exactly N scalar arguments the
    vector holds the arguments in their order: operator[] at an index
    below N returns the argument at that index.  The broadcast constructor
    builds the vector whose operator[] returns the value at every index
    below N, and the default constructor the one that returns zero; at N
    and above operator[] is undefined for all of them. *)
Theorem constructors_elements {T} {ST : Scalar T} (N : nat) (args : list T)
    (value : T) (pos : nat) :
  length args = N ->
  (exists v, construct N args = WellFormed v
             /\ subscript N v pos = args !! pos)
  /\ subscript N (tvec_broadcast N value) pos
     = (if decide (pos < N) then Some value else None)
  /\ subscript N (tvec_default N) pos
     = (if decide (pos < N) then Some s_zero else None)
  /\ (N <= pos -> args !! pos = None).
Proof.
  intros Hlen. split; [| split; [| split]].
  - destruct (construct_exact_arity N args Hlen) as (v & Hv & Helems).
    exists v. split; [exact Hv |]. unfold subscript. now rewrite Helems.
  - unfold subscript, tvec_broadcast. cbn [_elements]. case_decide.
    + now apply lookup_replicate_2.
    + apply lookup_ge_None_2. rewrite length_replicate. lia.
  - unfold subscript, tvec_default, tvec_broadcast. cbn [_elements]. case_decide.
    + now apply lookup_replicate_2.
    + apply lookup_ge_None_2. rewrite length_replicate. lia.
  - intros Hge. apply lookup_ge_None_2. lia.
Qed.

Lemma constructors_elements_witness :
  (exists v, @construct float float_scalar 2 [f_half; f_one] = WellFormed v
             /\ subscript 2 v 1 = [f_half; f_one] !! 1)
  /\ subscript 2 (tvec_broadcast 2 f_one) 1
     = (if decide (1 < 2) then Some f_one else None)
  /\ subscript 2 (@tvec_default float float_scalar 2) 1
     = (if decide (1 < 2) then Some s_zero else None)
  /\ (2 <= 1 -> [f_half; f_one] !! 1 = None).
Proof.
  exact (@constructors_elements float float_scalar 2 [f_half; f_one] f_one 1 eq_refl).
Defined.

End VectorLaws.

Section VectorReferences.
Import Vec VecRef.

Lemma range_for_negate (l : list Z) :
  Forall (fun x => int_range x /\ x <> int_min) l ->
  range_for (fun e => @s_mul Z signed_int e (@s_minus_one Z signed_int)) l
  = Some (Z.opp <$> l)
  /\ Forall (fun x => int_range x /\ x <> int_min) (Z.opp <$> l).
Proof.
  induction 1 as [|x l [Hx Hmin] _ [IHr IHf]]; [split; [reflexivity | constructor] |].
  assert (Hopp : int_range (- x) /\ (- x)%Z <> int_min)
    by (unfold int_range, int_min, int_max in *; lia).
  split.
  - cbn [range_for]. rewrite IHr. cbn.
    replace (x * -1)%Z with (- x)%Z by lia.
    now rewrite (int_checked_range _ (proj1 Hopp)).
  - cbn. now constructor.
Qed.

(** X7: over int, for a vector with no element equal to INT_MIN, -(-v)
    is defined, returns the reference to v and leaves every object of the
    store, v included, as it was. *)
Theorem negate_twice_restores (N : nat) (this : loc) (objects : store Z N)
    (v : tvec Z N) :
  objects !! this = Some v ->
  Forall (fun x => int_range x /\ x <> int_min) (_elements v) ->
  exists f,
    @operator_negate Z signed_int N = WellFormed f
    /\ (f this ≫= f) objects = Ok this objects.
Proof.
  intros Hthis Hrange. eexists. split; [reflexivity |].
  destruct (range_for_negate _ Hrange) as [Hfirst Hrange'].
  destruct (range_for_negate _ Hrange') as [Hsecond _].
  unfold mbind, outcome_bind, bind.
  unfold operator_times_assign_scalar_ref, returning_this.
  rewrite Hthis. unfold operator_times_assign_scalar.
  rewrite compound_scalar_outside, Hfirst. cbn [fmap option_fmap option_map].
  rewrite lookup_insert_eq, compound_scalar_outside. cbn [_elements].
  rewrite Hsecond.
  cbn [fmap option_fmap option_map]. f_equal.
  rewrite insert_insert_eq. apply insert_id. rewrite Hthis. f_equal.
  destruct v as [l]. cbn. f_equal. clear.
  induction l as [|x l IH]; cbn; [reflexivity |]. f_equal; [lia | exact IH].
Qed.

Lemma negate_twice_restores_witness :
  exists f,
    @operator_negate Z signed_int 2 = WellFormed f
    /\ (f 1%positive ≫= f) {[ 1%positive := mk_tvec [3; -4]%Z ]}
       = Ok 1%positive {[ 1%positive := mk_tvec [3; -4]%Z ]}.
Proof.
  apply (negate_twice_restores 2 1%positive
           {[ 1%positive := mk_tvec [3; -4]%Z ]} (mk_tvec [3; -4]%Z)).
  - apply lookup_singleton_eq.
  - repeat constructor; unfold int_min, int_max; lia.
Defined.

(** The index loop on the store: the right operand is read through its
    reference at every index. *)
Lemma index_loop_ref_pairwise {T} {ST : Scalar T} (N : nat)
    (op : T -> T -> option T) (this rhs : loc) (todo : list T) :
  forall (done rpre rtodo : list T) (objects : store T N),
    objects !! this = Some (mk_tvec (done ++ todo)) ->
    objects !! rhs = Some (mk_tvec (rpre ++ rtodo)) ->
    length rpre = length done ->
    length todo = length rtodo ->
    index_loop_ref N (length todo) (length done)
      (compound_at_ref N op this rhs) objects
    = (fun w => <[this := mk_tvec (done ++ w)]> objects) <$> pairwise op todo rtodo.
Proof.
  induction todo as [|x todo IH];
    intros done rpre rtodo objects Hthis Hrhs Hpre Hlen.
  - cbn. f_equal. symmetry. apply insert_id. now rewrite app_nil_r in *.
  - destruct rtodo as [|y rtodo]; [discriminate Hlen |].
    cbn [length index_loop_ref pairwise]. unfold compound_at_ref at 1, subscript.
    rewrite Hthis, Hrhs. cbn [_elements].
    rewrite (list_lookup_middle done todo x (length done) eq_refl).
    rewrite (list_lookup_middle rpre rtodo y (length done)) by congruence.
    destruct (op x y) as [z|]; [| reflexivity].
    replace (<[length done := z]> (done ++ x :: todo))
      with ((done ++ [z]) ++ todo).
    2:{ rewrite <- (Nat.add_0_r (length done)) at 1.
        rewrite insert_app_r. cbn. now rewrite <- app_assoc. }
    replace (S (length done)) with (length (done ++ [z]))
      by (rewrite length_app; cbn; lia).
    assert (Hrhs' : exists rpre',
               <[this := mk_tvec ((done ++ [z]) ++ todo)]> objects !! rhs
               = Some (@mk_tvec T N (rpre' ++ rtodo))
               /\ length rpre' = length (done ++ [z])).
    { destruct (decide (this = rhs)) as [<- | Hne].
      - exists (done ++ [z]). rewrite lookup_insert_eq. split; [| reflexivity].
        rewrite Hthis in Hrhs. injection Hrhs as Heq.
        apply app_inj_1 in Heq as [_ Heq]; [| congruence].
        injection Heq as _ ->. reflexivity.
      - exists (rpre ++ [y]). rewrite lookup_insert_ne by exact Hne.
        rewrite Hrhs, <- app_assoc. split; [reflexivity |].
        rewrite !length_app. cbn. lia. }
    destruct Hrhs' as (rpre' & Hrhs' & Hpre').
    rewrite (IH (done ++ [z]) rpre' rtodo _ (lookup_insert_eq _ _ _) Hrhs' Hpre')
      by (cbn in Hlen; lia).
    destruct (pairwise op todo rtodo) as [w|]; cbn; [| reflexivity].
    now rewrite insert_insert_eq, <- app_assoc.
Qed.

(** X8: binding the right operand by reference changes nothing: a
    compound assignment on the store leaves at [this] what the same
    assignment computes from the two vectors as they were, returns the
    location [this] and leaves the other objects alone; this holds too when
    the right operand is the left operand itself, as in v += v. *)
Theorem compound_by_reference {T} {ST : Scalar T} (N : nat)
    (op : T -> T -> option T) (this rhs : loc) (objects : store T N)
    (t r : tvec T N) :
  objects !! this = Some t -> objects !! rhs = Some r ->
  tvec_wf t -> tvec_wf r ->
  compound_vec_ref N op rhs this objects
  = match compound_vec N op r t with
    | Some t' => Ok this (<[this := t']> objects)
    | None => UB
    end.
Proof.
  intros Hthis Hrhs Ht Hr. unfold compound_vec_ref.
  rewrite compound_vec_pairwise by assumption.
  destruct t as [l], r as [k]. unfold tvec_wf in *. cbn [_elements] in *.
  pose proof (index_loop_ref_pairwise N op this rhs l [] [] k objects
                Hthis Hrhs eq_refl ltac:(congruence)) as Hloop.
  cbn [length app] in Hloop. rewrite Ht in Hloop. rewrite Hloop.
  now destruct (pairwise op l k).
Qed.

Lemma compound_by_reference_witness :
  @compound_vec_ref Z 2 (@s_add Z unsigned_int) 1%positive 1%positive
    {[ 1%positive := mk_tvec [3; 4]%Z ]}
  = match @compound_vec Z 2 (@s_add Z unsigned_int) (mk_tvec [3; 4]%Z) (mk_tvec [3; 4]%Z) with
    | Some t' => Ok 1%positive (<[1%positive := t']> {[ 1%positive := mk_tvec [3; 4]%Z ]})
    | None => UB
    end.
Proof.
  apply (@compound_by_reference Z unsigned_int 2 (@s_add Z unsigned_int)
           1%positive 1%positive {[ 1%positive := mk_tvec [3; 4]%Z ]}
           (mk_tvec [3; 4]%Z) (mk_tvec [3; 4]%Z)).
  - apply lookup_singleton_eq.
  - apply lookup_singleton_eq.
  - reflexivity.
  - reflexivity.
Defined.

End VectorReferences.

Section VectorStreaming.
Import Vec VecStream String.

Lemma string_append_assoc (a b c : string) :
  append (append a b) c = append a (append b c).
Proof.
  induction a as [|ch a IH]; [reflexivity |].
  change (String ch (append (append a b) c) = String ch (append a (append b c))).
  now rewrite IH.
Qed.

Lemma string_append_empty (a : string) : append a EmptyString = a.
Proof.
  induction a as [|ch a IH]; [reflexivity |].
  change (String ch (append a EmptyString) = String ch a). now rewrite IH.
Qed.

(** The loop, from any index on: the elements that are left, with ", "
    between two of them. *)
Lemma stream_loop_concat {T} {P : Streamable T} (N : nat)
    (rhs : tvec T N) (todo : list T) :
  forall (done : list T) (acc : string),
    _elements rhs = (done ++ todo)%list ->
    Datatypes.length (_elements rhs) = N ->
    (Z.of_nat N < size_max)%Z ->
    stream_loop N (Datatypes.length todo) (Datatypes.length done) rhs acc
    = Some (append acc (concat ", " (insert_element <$> todo))).
Proof.
  induction todo as [|x todo IH]; intros done acc Hrhs HN Hmax.
  - cbn. now rewrite string_append_empty.
  - cbn [Datatypes.length stream_loop]. unfold subscript.
    rewrite Hrhs, (list_lookup_middle done todo x _ eq_refl).
    assert (HlenN : N = Datatypes.length done + S (Datatypes.length todo)).
    { rewrite <- HN, Hrhs, length_app. cbn. lia. }
    unfold size, size_minus.
    rewrite Z.mod_small by (unfold size_max in *; lia).
    replace (S (Datatypes.length done))
      with (Datatypes.length (done ++ [x])%list)
      by (rewrite length_app; cbn; lia).
    destruct todo as [|y todo].
    + destruct (Z.ltb_spec (Z.of_nat (Datatypes.length done)) (Z.of_nat N - 1));
        [cbn in HlenN; lia |].
      rewrite (IH (done ++ [x])%list); [| | assumption | assumption].
      * f_equal. cbn [fmap list_fmap concat]. now rewrite string_append_empty.
      * now rewrite <- app_assoc.
    + destruct (Z.ltb_spec (Z.of_nat (Datatypes.length done)) (Z.of_nat N - 1));
        [| cbn in HlenN; lia].
      rewrite (IH (done ++ [x])%list); [| | assumption | assumption].
      * f_equal. cbn [fmap list_fmap concat].
        now rewrite !string_append_assoc.
      * now rewrite <- app_assoc.
Qed.

(** X9: operator<< appends to the stream the text "tvec{", the elements
    as the inserter of the element type writes them, in their order and
    with ", " between two of them, and "}".  A vector of dimension zero
    gives "tvec{}": the loop does not run, and rhs.size() - 1, which wraps
    around in std::size_t, is never compared. *)
Theorem stream_format {T} {P : Streamable T} (N : nat)
    (lhs : string) (rhs : tvec T N) :
  tvec_wf rhs ->
  (Z.of_nat N < size_max)%Z ->
  operator_shift_left N lhs rhs
  = Some (append lhs
            (append "tvec{"
               (append (concat ", " (insert_element <$> _elements rhs)) "}"))).
Proof.
  intros Hwf Hmax. unfold operator_shift_left, size.
  pose proof (stream_loop_concat N rhs (_elements rhs) [] (append lhs "tvec{")
                eq_refl Hwf Hmax) as Hloop.
  cbn [Datatypes.length] in Hloop. unfold tvec_wf in Hwf.
  rewrite Hwf in Hloop. rewrite Hloop.
  now rewrite !string_append_assoc.
Qed.

Lemma stream_format_witness :
  @operator_shift_left bool letter_inserter 3 "v = " (mk_tvec [true; false; true])
  = Some "v = tvec{t, f, t}"%string.
Proof.
  exact (@stream_format bool letter_inserter 3 "v = "
           (mk_tvec [true; false; true]) eq_refl eq_refl).
Defined.

End VectorStreaming.

(** * Further properties of the widget container *)

Section WidgetSequence.
Import Vec Widget.

Lemma take_insert_drop {A} (pos : nat) (x : A) (v : list A) :
  pos <= length v ->
  take pos (take pos v ++ x :: drop pos v) = take pos v
  /\ drop (S pos) (take pos v ++ x :: drop pos v) = drop pos v
  /\ length (take pos v ++ x :: drop pos v) = S (length v).
Proof.
  intros Hpos.
  assert (Hlen : length (take pos v) = pos) by (rewrite length_take; lia).
  split; [| split].
  - now apply take_app_length'.
  - change (take pos v ++ x :: drop pos v) with (take pos v ++ [x] ++ drop pos v).
    rewrite app_assoc. apply drop_app_length'. rewrite length_app. cbn. lia.
  - rewrite length_app. cbn. rewrite Hlen, length_drop. lia.
Qed.

(** X10: insert(pos, child) followed by erase(pos) leaves the widget as
    it was, and erase returns pos, for every position from begin() to
    end(). *)
Theorem insert_erase_round_trip (w : widget) (pos : iterator)
    (child : widget_pointer) :
  pos <= length (_children w) ->
  (insert pos child ≫= fun _ => erase pos) w = Ok pos w.
Proof.
  intros Hpos. destruct w as [d b cs]. cbn [_children] in Hpos.
  destruct (take_insert_drop pos child cs Hpos) as (Htake & Hdrop & Hlen).
  unfold insert, erase, mbind, outcome_bind, bind, on_children, mret,
         outcome_ret, ret, StdVector.insert, StdVector.erase.
  cbn [_children _dirty _bounds].
  destruct (decide (pos <= length cs)) as [_ | Hn]; [| contradiction].
  cbn [_children _dirty _bounds].
  destruct (decide (pos < length (take pos cs ++ child :: drop pos cs)))
    as [_ | Hn]; [| rewrite Hlen in Hn; lia].
  now rewrite Htake, Hdrop, take_drop.
Qed.

Lemma insert_erase_round_trip_witness :
  (insert 1 (Some 9%positive) ≫= fun _ => erase 1)
    (mk_widget true (tvec_default 2) [Some 1%positive; None])
  = Ok 1 (mk_widget true (tvec_default 2) [Some 1%positive; None]).
Proof.
  apply (insert_erase_round_trip
           (mk_widget true (tvec_default 2) [Some 1%positive; None]) 1
           (Some 9%positive)).
  cbn. lia.
Defined.

(** X11: insert(pos, child) is undefined for a position past end();
    otherwise it never raises, the child is then the one that at(pos)
    returns, the children before pos keep their index, the children from
    pos on move up by one, and size() grows by one. *)
Theorem insert_places_child (w : widget) (pos : iterator) (child : widget_pointer) :
  match insert pos child w with
  | Ok _ w' =>
      pos <= length (_children w)
      /\ at_ pos w' = Ok child w'
      /\ length (_children w') = S (length (_children w))
      /\ (forall i, i < pos -> _children w' !! i = _children w !! i)
      /\ (forall i, pos <= i -> _children w' !! S i = _children w !! i)
  | Raise _ _ => False
  | UB => length (_children w) < pos
  end.
Proof.
  destruct w as [d b cs].
  unfold insert, at_, mbind, outcome_bind, bind, on_children, mret,
         outcome_ret, ret, StdVector.insert, StdVector.at_.
  cbn [_children _dirty _bounds].
  destruct (decide (pos <= length cs)) as [Hpos | Hn]; [| lia].
  cbn [_children _dirty _bounds].
  destruct (take_insert_drop pos child cs Hpos) as (_ & _ & Hlen).
  assert (Htake : length (take pos cs) = pos) by (rewrite length_take; lia).
  split; [exact Hpos |]. split.
  { now rewrite (list_lookup_middle _ _ child pos). }
  split; [exact Hlen |]. split.
  - intros i Hi. rewrite lookup_app_l by lia. apply lookup_take_lt. exact Hi.
  - intros i Hi. rewrite lookup_app_r by lia. rewrite Htake.
    replace (S i - pos) with (S (i - pos)) by lia.
    change ((child :: drop pos cs) !! S (i - pos)) with (drop pos cs !! (i - pos)).
    rewrite lookup_drop. f_equal. lia.
Qed.

(** X12: clear() leaves a widget without children, whatever it held:
    size() is then 0, front(), back() and operator[] are undefined, at()
    raises out_of_range; erase(begin(), end()) leaves the same widget. *)
Theorem clear_empties (w : widget) (pos : size_type) :
  exists w',
    clear w = Ok tt w'
    /\ w' = mk_widget (_dirty w) (_bounds w) []
    /\ size w' = Ok 0 w'
    /\ front w' = UB /\ back w' = UB /\ subscript pos w' = UB
    /\ at_ pos w' = Raise out_of_range w'
    /\ erase_range 0 (length (_children w)) w = Ok 0 w'.
Proof.
  destruct w as [d b cs]. eexists. split; [reflexivity |].
  split; [reflexivity |]. repeat split.
  unfold erase_range, on_children, StdVector.erase_range.
  cbn [_children _dirty _bounds].
  destruct (decide (0 <= length cs /\ length cs <= length cs)) as [_ | Hn];
    [| lia].
  now rewrite drop_all.
Qed.

(** X13: push_back(child) is insert(end(), child): the two leave the same
    widget.  It never fails, back() then returns the child, size() has
    grown by one and front() returns what it returned before. *)
Theorem push_back_appends (w : widget) (child first : widget_pointer) :
  exists w',
    push_back child w = Ok tt w'
    /\ (end_ ≫= fun e => insert e child) w = Ok tt w'
    /\ back w' = Ok child w'
    /\ length (_children w') = S (length (_children w))
    /\ (front w = Ok first w -> front w' = Ok first w').
Proof.
  destruct w as [d b cs]. eexists. split; [reflexivity |].
  unfold end_, insert, back, front, mbind, outcome_bind, bind, on_children,
         mret, outcome_ret, ret, StdVector.end_, StdVector.insert,
         StdVector.back, StdVector.front.
  cbn [_children _dirty _bounds].
  destruct (decide (length cs <= length cs)) as [_ | Hn]; [| lia].
  cbn [_children _dirty _bounds]. rewrite take_ge, drop_all by lia.
  split; [reflexivity |]. rewrite last_snoc. split; [reflexivity |].
  split; [rewrite length_app; cbn; lia |].
  destruct cs as [|c cs]; [discriminate |]. cbn. now intros [= ->].
Qed.

Lemma push_back_appends_witness :
  exists w',
    push_back None (mk_widget true (tvec_default 2) [Some 1%positive]) = Ok tt w'
    /\ (end_ ≫= fun e => insert e None)
         (mk_widget true (tvec_default 2) [Some 1%positive]) = Ok tt w'
    /\ back w' = Ok None w'
    /\ length (_children w') = 2
    /\ (front (mk_widget true (tvec_default 2) [Some 1%positive])
         = Ok (Some 1%positive) (mk_widget true (tvec_default 2) [Some 1%positive])
        -> front w' = Ok (Some 1%positive) w').
Proof.
  exact (push_back_appends (mk_widget true (tvec_default 2) [Some 1%positive])
           None (Some 1%positive)).
Defined.

(** X14: erase(pos) is undefined at end() and past it; otherwise it
    never raises, returns pos, takes exactly the child at pos away (the
    children before keep their index, the children after move down by
    one, size() shrinks by one) and is erase(pos, pos + 1). *)
Theorem erase_removes_one (w : widget) (pos : iterator) :
  match erase pos w with
  | Ok it w' =>
      pos < length (_children w)
      /\ it = pos
      /\ S (length (_children w')) = length (_children w)
      /\ (forall i, i < pos -> _children w' !! i = _children w !! i)
      /\ (forall i, pos <= i -> _children w' !! i = _children w !! S i)
      /\ erase_range pos (S pos) w = Ok pos w'
  | Raise _ _ => False
  | UB => length (_children w) <= pos
  end.
Proof.
  destruct w as [d b cs].
  unfold erase, erase_range, on_children, StdVector.erase, StdVector.erase_range.
  cbn [_children _dirty _bounds].
  destruct (decide (pos < length cs)) as [Hpos | Hn]; [| lia].
  assert (Htake : length (take pos cs) = pos) by (rewrite length_take; lia).
  split; [exact Hpos |]. split; [reflexivity |].
  cbn [_children _dirty _bounds]. split.
  { rewrite length_app, Htake, length_drop. lia. }
  split; [| split].
  - intros i Hi. rewrite lookup_app_l by lia. apply lookup_take_lt. exact Hi.
  - intros i Hi. rewrite lookup_app_r by lia. rewrite Htake, lookup_drop.
    f_equal. lia.
  - destruct (decide (pos <= S pos /\ S pos <= length cs)) as [_ | Hn]; [| lia].
    reflexivity.
Qed.

(** X15: erase(first, last) with first = last erases nothing and returns
    the position, for every position from begin() to end(); with last
    before first or past end() it is undefined. *)
Theorem erase_range_edges (w : widget) (first last : iterator) :
  (first <= length (_children w) -> erase_range first first w = Ok first w)
  /\ (last < first \/ length (_children w) < last ->
      erase_range first last w = UB).
Proof.
  destruct w as [d b cs].
  unfold erase_range, on_children, StdVector.erase_range.
  cbn [_children _dirty _bounds]. split.
  - intros Hpos.
    destruct (decide (first <= first /\ first <= length cs)) as [_ | Hn]; [| lia].
    now rewrite take_drop.
  - intros Hbad.
    destruct (decide (first <= last /\ last <= length cs)) as [Hok | _]; [lia |].
    reflexivity.
Qed.

Lemma erase_range_edges_witness :
  erase_range 2 2 (mk_widget true (tvec_default 2) [Some 1%positive; None])
  = Ok 2 (mk_widget true (tvec_default 2) [Some 1%positive; None])
  /\ erase_range 1 0 (mk_widget true (tvec_default 2) [Some 1%positive; None]) = UB.
Proof.
  destruct (erase_range_edges
              (mk_widget true (tvec_default 2) [Some 1%positive; None]) 2 2)
    as [Hsame _].
  destruct (erase_range_edges
              (mk_widget true (tvec_default 2) [Some 1%positive; None]) 1 0)
    as [_ Hbad].
  split; [apply Hsame; cbn; lia | apply Hbad; left; lia].
Defined.

End WidgetSequence.

Section WidgetFrame.
Import Vec Widget.

Lemma on_children_same_frame {A} (member : M (list widget_pointer) A) (w : widget) :
  match on_children member w with
  | Ok _ w' | Raise _ w' => same_frame w w'
  | UB => True
  end.
Proof.
  pose proof (on_children_frame member w) as H.
  destruct (on_children member w); unfold same_frame; tauto.
Qed.

Lemma invoke_same_frame (m : method) (w : widget) :
  match invoke m w with
  | Ok _ w' | Raise _ w' => same_frame w w'
  | UB => True
  end.
Proof.
  assert (Htrans : forall s1 s2 s3 : widget,
             same_frame s1 s2 -> same_frame s2 s3 -> same_frame s1 s3)
    by (unfold same_frame; intros ? ? ? [? ?] [? ?]; split; congruence).
  destruct m; cbn [invoke];
    unfold at_, subscript, front, back, size, begin_, end_, clear, insert,
           erase, erase_range, push_back, emplace_back_body;
    repeat first
      [ apply on_children_same_frame
      | apply (bind_frame same_frame); [exact Htrans | | intros ? ?]
      | split; reflexivity ].
Qed.

Lemma invoke_accessor (m : method) (w : widget) :
  accessor m = true ->
  match invoke m w with
  | Ok _ w' | Raise _ w' => w' = w
  | UB => True
  end.
Proof.
  intros Hm. destruct w as [d b cs].
  destruct m; try discriminate Hm; cbn [invoke];
    unfold at_, subscript, front, back, size, begin_, end_,
           mbind, outcome_bind, bind, on_children, mret, outcome_ret, ret,
           StdVector.at_, StdVector.subscript, StdVector.front, StdVector.back,
           StdVector.size, StdVector.begin_, StdVector.end_;
    cbn [_children _dirty _bounds];
    repeat case_match; simplify_eq; done.
Qed.

(** X16: no series of member calls, however it ends, changes the bounds
    or the dirty flag of the widget it is made on; and a series of reading
    members (at, operator[], front, back, size, begin, end) leaves the
    whole widget as it was, also when at() raises. *)
Theorem members_frame (ms : list method) (w : widget) :
  match run ms w with
  | Ok _ w' | Raise _ w' =>
      _bounds w' = _bounds w /\ _dirty w' = _dirty w
      /\ (forallb accessor ms = true -> w' = w)
  | UB => True
  end.
Proof.
  revert w. induction ms as [|m ms IH]; intros w.
  - cbn. auto.
  - cbn [run forallb]. unfold mbind, outcome_bind, bind.
    pose proof (invoke_same_frame m w) as Hframe.
    pose proof (invoke_accessor m w) as Hacc.
    destruct (invoke m w) as [[] w1 | e w1 |]; [| | exact I].
    + specialize (IH w1). destruct Hframe as [Hb Hd].
      destruct (run ms w1) as [[] w2 | e w2 |]; [| | exact I].
      * destruct IH as (Hb2 & Hd2 & Hsame).
        split; [congruence |]. split; [congruence |].
        intros Hall. apply andb_prop in Hall as [Hm Hms].
        transitivity w1; [exact (Hsame Hms) | exact (Hacc Hm)].
      * destruct IH as (Hb2 & Hd2 & Hsame).
        split; [congruence |]. split; [congruence |].
        intros Hall. apply andb_prop in Hall as [Hm Hms].
        transitivity w1; [exact (Hsame Hms) | exact (Hacc Hm)].
    + destruct Hframe as [Hb Hd]. split; [exact Hb |]. split; [exact Hd |].
      intros Hall. apply andb_prop in Hall as [Hm _]. exact (Hacc Hm).
Qed.

End WidgetFrame.

(** * Further properties of the frame cycle *)

Section FrameSeries.
Import Vec Render Context.

Lemma replay_app {R} {B : renderer R} (calls calls' : list renderer_call) (r : R) :
  replay (calls ++ calls') r = replay calls' (replay calls r).
Proof. unfold replay. apply foldl_app. Qed.

(** X17: whatever series of update() and draw() an application makes on
    a context that make_context built, every call returns, the context
    still owns its renderer, and the renderer has received, in order, for
    every draw() one begin_pass() and one draw of the triangle and for an
    update() nothing: no end_pass() and no scissor call is ever issued. *)
Theorem frames_issue {R} {B : renderer R} (cs : list frame_call) (backend : R) :
  frames cs (make_context backend)
  = Ok tt (make_context (replay (cs ≫= issued) backend))
  /\ Forall (fun c => c = call_begin_pass \/ c = call_draw expected_triangle)
       (cs ≫= issued)
  /\ length (cs ≫= issued)
     = 2 * length (filter (fun c => c = frame_draw) cs).
Proof.
  split; [| split].
  - revert backend. induction cs as [|c cs IH]; intros backend; [reflexivity |].
    cbn [frames]. unfold mbind at 1, outcome_bind, bind.
    change ((c :: cs) ≫= issued) with (issued c ++ (cs ≫= issued)).
    rewrite replay_app.
    destruct c; cbn [frame issued].
    + change (update (make_context backend)) with (Ok tt (make_context backend)).
      apply IH.
    + rewrite draw_replay. apply IH.
  - induction cs as [|c cs IH]; [constructor |].
    change ((c :: cs) ≫= issued) with (issued c ++ (cs ≫= issued)).
    apply Forall_app. split; [| exact IH].
    destruct c; cbn [issued]; [constructor |].
    constructor; [now left |]. constructor; [now right | constructor].
  - induction cs as [|c cs IH]; [reflexivity |].
    change ((c :: cs) ≫= issued) with (issued c ++ (cs ≫= issued)).
    rewrite length_app, IH, filter_cons.
    destruct c; cbn [issued length]; case_decide; try discriminate;
      try congruence; cbn [length]; lia.
Qed.

End FrameSeries.
